(** * typesaurus, [src/adapter/admin/transaction.mjs]

    A shallow embedding of the transactional adapter: the read-side and
    write-side proxy trees ([readDB], [writeDB]), the collection handles,
    the read-to-write converter ([readDocsToWriteDocs]), the output
    converter ([writeDocsToDocs]), the path resolver ([pathToWriteRef]) and
    the callback that [transaction(db).read(...).write(...)] hands to the
    client.

    JavaScript values are a closed variant: primitives, arrays, keyed
    mappings and the instances of the classes that a function tests for
    with [instanceof].  Exceptions are an error monad.  The db object,
    which is copied and whose copy is mutated, lives in a store of
    locations; the writes that a transaction object has been asked to stage
    are a state passed along. *)

From Stdlib Require Import ZArith String Ascii List Lia.
From stdpp Require Import base option list strings pretty gmap.

#[local] Set Warnings "-register-all".

(** * The program *)

(** ** Exceptions *)

Inductive error :=
| Error (message : string)
| TypeError (message : string)
| ReferenceError (message : string).

Inductive outcome (A : Type) :=
| Return (a : A)
| Throw (e : error).
Arguments Return {A} a.
Arguments Throw {A} e.

#[global] Instance outcome_ret : MRet outcome := @Return.
#[global] Instance outcome_bind : MBind outcome := fun A B f m =>
  match m with
  | Return a => f a
  | Throw e => Throw e
  end.
#[global] Instance outcome_fmap : FMap outcome := fun A B f m =>
  match m with
  | Return a => Return (f a)
  | Throw e => Throw e
  end.

(** ** Values *)

(** Primitives.  Numbers are only carried around by this module, never
    computed with, so integers stand for them. *)
Inductive prim :=
| PUndefined
| PNull
| PBool (b : bool)
| PNumber (n : Z)
| PString (s : string).

(** A value over the class instances [L]: [typeof] is ["object"] for
    [Arr], [Obj], [Inst] and for [Prim PNull]; [Array.isArray] holds for
    [Arr] only.  [Obj] lists the own enumerable string-keyed properties in
    enumeration order, each key once. *)
Inductive val (L : Type) :=
| Prim (p : prim)
| Arr (items : list (val L))
| Obj (props : list (string * val L))
| Inst (x : L).
Arguments Prim {L} p.
Arguments Arr {L} items.
Arguments Obj {L} props.
Arguments Inst {L} x.

(** [o[key] = v] on a keyed mapping: an existing property keeps its place,
    a new one is appended. *)
Fixpoint obj_set {A : Type} (key : string) (v : A) (o : list (string * A))
  : list (string * A) :=
  match o with
  | [] => [(key, v)]
  | (k, x) :: rest =>
      if String.eqb k key then (k, v) :: rest else (k, x) :: obj_set key v rest
  end.

Definition keys {A : Type} (o : list (string * A)) : list string := map fst o.

(** [a[i] = v] on an array: in range the slot is overwritten; past the end
    the array grows, the skipped slots reading as [undefined]. *)
Definition array_set {L : Type} (i : nat) (v : val L) (a : list (val L))
  : list (val L) :=
  if Nat.ltb i (length a) then <[i := v]> a
  else (a ++ replicate (i - length a) (Prim PUndefined) ++ [v])%list.

(** ** Handles *)

(** The db object is shared by reference: a handle is its location. *)
Definition loc := positive.
Definition DB := loc.

(** The transaction object handed over by [runTransaction]. *)
Definition Transaction := nat.

(** The collection classes also set [firestore] to [db[firestoreSymbol]]
    and [type] to ["collection"]; both are determined by the class and
    [db]. *)
Module ReadCollection.
Record t := new { db : DB; transaction : Transaction; name : string; path : string }.
End ReadCollection.

(** [type] is ["ref"]. *)
Module ReadRef.
Record t := new { collection : ReadCollection.t; id : string }.
End ReadRef.

Module WriteCollection.
Record t := new { db : DB; transaction : Transaction; name : string; path : string }.

Definition fromRead (collection : ReadCollection.t) : t :=
  new (ReadCollection.db collection)
      (ReadCollection.transaction collection)
      (ReadCollection.name collection)
      (ReadCollection.path collection).
End WriteCollection.

Module WriteRef.
Record t := new { collection : WriteCollection.t; id : string }.
End WriteRef.

(** A reference inside a document payload. *)
Inductive reference :=
| ReadReference (r : ReadRef.t)
| WriteReference (r : WriteRef.t).

(** The data payload of a document: application data whose instances are
    the embedded references. *)
Abbreviation payload := (val reference).

(** [type] is ["doc"] and [environment] is ["server"]. *)
Module ReadDoc.
Record t := Build { ref : ReadRef.t; data : payload }.

Definition new (collection : ReadCollection.t) (id : string) (data : payload) : t :=
  Build (ReadRef.new collection id) data.
End ReadDoc.

Module WriteDoc.
Record t := Build { ref : WriteRef.t; data : payload }.

Definition new (collection : WriteCollection.t) (id : string) (data : payload) : t :=
  Build (WriteRef.new collection id) data.

Definition fromRead (doc : ReadDoc.t) : t :=
  new (WriteCollection.fromRead (ReadRef.collection (ReadDoc.ref doc)))
      (ReadRef.id (ReadDoc.ref doc))
      (ReadDoc.data doc).
End WriteDoc.

(** [WriteRef.fromRead(doc)] reads [doc.ref.collection] and [doc.ref.id]:
    its argument is a document.  Nothing in the module calls it. *)
Definition WriteRef_fromRead (doc : ReadDoc.t) : WriteRef.t :=
  WriteRef.new (WriteCollection.fromRead (ReadRef.collection (ReadDoc.ref doc)))
               (ReadRef.id (ReadDoc.ref doc)).

(** The caller-facing classes of core.mjs, as the arguments that their
    constructors receive. *)
Module Collection.
Record t := new { db : DB; name : string; path : string }.
End Collection.

Module Ref.
Record t := new { collection : Collection.t; id : string }.
End Ref.

Module Doc.
Record t := new { collection : Collection.t; id : string; data : payload }.
End Doc.

(** The instances in what the read callback returns, in what the write
    callback returns and in what the caller receives. *)
Inductive read_instance :=
| AReadDoc (doc : ReadDoc.t)
| AReadRef (ref : ReadRef.t).

Inductive write_instance :=
| AWriteDoc (doc : WriteDoc.t)
| AWriteRef (ref : WriteRef.t).

Inductive plain_instance :=
| ADoc (doc : Doc.t)
| ARef (ref : Ref.t).

(** ** The read-to-write converter *)

(** [Object.entries(data).forEach(([key, value]) => { processedData[key] =
    f(value) })] on an array: [key] is the index of the next entry. *)
Definition forEach_items {A B : Type} (f : val A → outcome (val B))
  : list (val A) → nat → list (val B) → outcome (list (val B)) :=
  fix forEach entries key processedData :=
    match entries with
    | [] => Return processedData
    | value :: entries =>
        v ← f value;
        forEach entries (S key) (array_set key v processedData)
    end.

(** The same loop on a keyed mapping. *)
Definition forEach_props {A B : Type} (f : val A → outcome (val B))
  : list (string * val A) → list (string * val B) → outcome (list (string * val B)) :=
  fix forEach entries processedData :=
    match entries with
    | [] => Return processedData
    | (key, value) :: entries =>
        v ← f value;
        forEach entries (obj_set key v processedData)
    end.

Fixpoint readDocsToWriteDocs (db : DB) (transaction : Transaction)
    (data : val read_instance) : outcome (val write_instance) :=
  match data with
  | Inst (AReadDoc doc) =>
      Return (Inst (AWriteDoc (WriteDoc.fromRead doc)))
  | Inst (AReadRef ref) =>
      (* [WriteRead.fromRead(data)]: no import and no declaration of the
         module binds [WriteRead], evaluating the identifier throws *)
      Throw (ReferenceError "WriteRead is not defined")
  | Arr items =>
      Arr <$> forEach_items (readDocsToWriteDocs db transaction) items 0%nat []
  | Obj props =>
      Obj <$> forEach_props (readDocsToWriteDocs db transaction) props []
  | Prim p => Return (Prim p)
  end.

(** ** The output converter *)

Fixpoint writeDocsToDocs (db : DB) (value : val write_instance)
  : outcome (val plain_instance) :=
  match value with
  | Inst (AWriteDoc doc) =>
      Return (Inst (ADoc (Doc.new
        (Collection.new db
           (WriteCollection.name (WriteRef.collection (WriteDoc.ref doc)))
           (WriteCollection.path (WriteRef.collection (WriteDoc.ref doc))))
        (WriteRef.id (WriteDoc.ref doc))
        (WriteDoc.data doc))))
  | Inst (AWriteRef ref) =>
      (* [value.ref.collection.name]: a [WriteRef] has the properties [type],
         [collection] and [id] and no [ref], so [value.ref] is [undefined]
         and reading [collection] from it throws *)
      Throw (TypeError "Cannot read properties of undefined (reading 'collection')")
  | Arr items => Arr <$> forEach_items (writeDocsToDocs db) items 0%nat []
  | Obj props => Obj <$> forEach_props (writeDocsToDocs db) props []
  | Prim p => Return (Prim p)
  end.

(** ** The path resolver *)

(** [s.split("/")] *)
Fixpoint segments (s : string) : list string :=
  match s with
  | EmptyString => [""]
  | String c rest =>
      if Ascii.eqb c "/" then "" :: segments rest
      else match segments rest with
           | seg :: segs => String c seg :: segs
           | [] => [String c ""]
           end
  end.

Definition nonempty (s : string) : bool :=
  match s with EmptyString => false | String _ _ => true end.

(** Modelled from the spec: the constant [pathRegExp] of core.mjs, which
    is not among the sources.  The grammar is
    [(<nestedPrefix>/)?<collectionName>/<documentId>], the nested prefix
    being itself slash-separated segments; a path with an empty component
    or with fewer than two segments does not match.  [path.match] yields
    the three capture groups, the first one (the prefix with its closing
    slash) being [undefined] when the path has two segments. *)
Definition pathRegExp_match (path : string) : option (option string * string * string) :=
  let segs := segments path in
  if forallb nonempty segs then
    match rev segs with
    | id :: name :: [] => Some (None, name, id)
    | id :: name :: prefix => Some (Some (String.concat "/" (rev prefix) +:+ "/"), name, id)
    | _ => None
    end
  else None.

Definition pathToWriteRef (db : DB) (transaction : Transaction) (path : string)
  : outcome WriteRef.t :=
  match pathRegExp_match path with
  | None => Throw (Error ("Can't parse path " +:+ path))
  | Some (nestedPath, name, id) =>
      Return (WriteRef.new
                (WriteCollection.new db transaction name (default "" nestedPath +:+ name))
                id)
  end.

(** ** Reading a document *)

(** The client's native data: its instances are the client's document
    references, given by their path. *)
Abbreviation native := (val string).

(** Modelled from the spec: [wrapData] of core.mjs, which is not among the
    sources.  [wrapData(db, nativeData, refResolver)] walks the native data
    and replaces every embedded reference by what the resolver makes of its
    path; arrays, keyed mappings and primitives keep their shape. *)
Fixpoint wrapData (db : DB) (data : native) (ref : DB → string → outcome reference)
  : outcome payload :=
  match data with
  | Inst path => Inst <$> ref db path
  | Arr items => Arr <$> mapM (fun v => wrapData db v ref) items
  | Obj props =>
      Obj <$> mapM (fun kv => match kv with
                              | (k, v) => w ← wrapData db v ref; mret (k, w)
                              end) props
  | Prim p => Return (Prim p)
  end.

(** [firestore] is the documents of the database as the transaction sees
    them, by path: [transaction.get(doc)] is a snapshot that exists when
    the path is bound, [snapshot.data()] being the bound data.  A result
    [None] is [null]. *)
Definition ReadCollection_get (this : ReadCollection.t) (id : string)
    (firestore : gmap string native) : outcome (option ReadDoc.t) :=
  let doc := ReadCollection.path this +:+ "/" +:+ id in
  match firestore !! doc with
  | None => Return None
  | Some data =>
      wrapped ← wrapData (ReadCollection.db this) data
                  (fun db path =>
                     WriteReference <$>
                       pathToWriteRef db (ReadCollection.transaction this) path);
      Return (Some (ReadDoc.new this id wrapped))
  end.

(** ** Staging writes *)

(** The calls that stage a write, as a transaction object receives them:
    [set] (with [merge] or without), [update] and [delete]. *)
Inductive write :=
| TxSet (doc : string) (data : native) (merge : bool)
| TxUpdate (doc : string) (data : native)
| TxDelete (doc : string).

Definition stage (transaction : Transaction) (w : write)
    (staged : gmap Transaction (list write)) : gmap Transaction (list write) :=
  <[transaction := (default [] (staged !! transaction) ++ [w])%list]> staged.

(** Modelled from the spec: the class [UpdateField] of core.mjs, which is
    not among the sources: a marker for one partial mutation, a field path
    and what to store there. *)
Module UpdateField.
Record t := new { key : string; value : payload }.
End UpdateField.

(** Modelled from the spec: [updateFields] of core.mjs, which is not among
    the sources: an ordered sequence of update fields is flattened into a
    mapping from field path to value. *)
Definition updateFields (fields : list UpdateField.t) : list (string * payload) :=
  fold_left (fun acc field => obj_set (UpdateField.key field) (UpdateField.value field) acc)
            fields [].

(** The helper objects handed to a callback, [writeHelpers()] and
    [updateHelpers()] of core.mjs. *)
Inductive WriteHelpers := writeHelpers.
Inductive UpdateHelpers := updateHelpers.

(** The [data] argument of [set] and [upset]: a function of the write
    helpers, or the data. *)
Inductive set_data :=
| SetFunction (f : WriteHelpers → payload)
| SetData (data : payload).

(** The [data] argument of [update], or what a function of the update
    helpers yields: a primitive, an array of update fields, one update
    field, or a plain partial structure. *)
Inductive update_value :=
| UpdatePrim (p : prim)
| UpdateArray (fields : list UpdateField.t)
| UpdateOne (field : UpdateField.t)
| UpdateObject (props : list (string * payload)).

Inductive update_data :=
| UpdateFunction (f : UpdateHelpers → update_value)
| UpdateData (v : update_value).

(** [!p] *)
Definition falsy (p : prim) : bool :=
  match p with
  | PUndefined | PNull | PBool false | PNumber 0 | PString EmptyString => true
  | _ => false
  end.

(** [Object.keys(v)]: the indices of an array or of a string, the keys of
    a mapping, nothing for the other primitives. *)
Definition Object_keys (v : payload) : list string :=
  match v with
  | Obj props => keys props
  | Arr items => map pretty (seq 0 (length items))
  | Prim (PString s) => map pretty (seq 0 (String.length s))
  | _ => []
  end.

Section Writes.
(** [unwrapData] of core.mjs, applied to the client accessor of the
    collection: the payload in the client's native form. *)
Variable unwrapData : payload → native.

Definition WriteCollection_set (this : WriteCollection.t) (id : string)
    (data : set_data) (staged : gmap Transaction (list write)) :=
  let dataToSet := match data with SetFunction f => f writeHelpers | SetData d => d end in
  let doc := WriteCollection.path this +:+ "/" +:+ id in
  stage (WriteCollection.transaction this) (TxSet doc (unwrapData dataToSet) false) staged.

Definition WriteCollection_upset (this : WriteCollection.t) (id : string)
    (data : set_data) (staged : gmap Transaction (list write)) :=
  let dataToUpset := match data with SetFunction f => f writeHelpers | SetData d => d end in
  let doc := WriteCollection.path this +:+ "/" +:+ id in
  stage (WriteCollection.transaction this) (TxSet doc (unwrapData dataToUpset) true) staged.

Definition WriteCollection_update (this : WriteCollection.t) (id : string)
    (data : update_data) (staged : gmap Transaction (list write)) :=
  let updateData :=
    match data with UpdateFunction f => f updateHelpers | UpdateData v => v end in
  if match updateData with UpdatePrim p => falsy p | _ => false end then staged
  else
    let update : payload :=
      match updateData with
      | UpdateArray fields => Obj (updateFields fields)
      | UpdateOne field => Obj (updateFields [field])
      | UpdateObject props => Obj props
      | UpdatePrim p => Prim p
      end in
    if Nat.eqb (length (Object_keys update)) 0 then staged
    else
      let doc := WriteCollection.path this +:+ "/" +:+ id in
      stage (WriteCollection.transaction this) (TxUpdate doc (unwrapData update)) staged.

Definition WriteCollection_remove (this : WriteCollection.t) (id : string)
    (staged : gmap Transaction (list write)) :=
  let doc := WriteCollection.path this +:+ "/" +:+ id in
  stage (WriteCollection.transaction this) (TxDelete doc) staged.

(** The methods of a reference and of a document go to the collection. *)
Definition WriteRef_set (this : WriteRef.t) (data : set_data) :=
  WriteCollection_set (WriteRef.collection this) (WriteRef.id this) data.

Definition WriteRef_upset (this : WriteRef.t) (data : set_data) :=
  WriteCollection_upset (WriteRef.collection this) (WriteRef.id this) data.

Definition WriteRef_update (this : WriteRef.t) (data : update_data) :=
  WriteCollection_update (WriteRef.collection this) (WriteRef.id this) data.

Definition WriteRef_remove (this : WriteRef.t) :=
  WriteCollection_remove (WriteRef.collection this) (WriteRef.id this).

Definition WriteDoc_set (this : WriteDoc.t) (data : set_data) :=
  WriteRef_set (WriteDoc.ref this) data.

Definition WriteDoc_upset (this : WriteDoc.t) (data : set_data) :=
  WriteRef_upset (WriteDoc.ref this) data.

Definition WriteDoc_update (this : WriteDoc.t) (data : update_data) :=
  WriteRef_update (WriteDoc.ref this) data.

Definition WriteDoc_remove (this : WriteDoc.t) :=
  WriteRef_remove (WriteDoc.ref this).
End Writes.

(** ** The schema and the proxy trees *)

(** An entry of a db object or of a nested schema: a function, which
    carries a [path] and yields the nested schema of a document id, or any
    other value.  Of such objects only the keys and what is stored under
    them matter here: they are finite maps. *)
Inductive entry :=
| Static (descriptor : val Empty_set)
| Factory (path : string) (call : string → gmap string entry).

(** The path of the handle made for [name]:
    [nestedPath ? `${nestedPath}/${name}` : name]. *)
Definition handle_path (nestedPath : option string) (name : string) : string :=
  match nestedPath with
  | Some (String _ _ as nested) => nested +:+ "/" +:+ name
  | _ => name
  end.

(** An entry of a read tree: a collection handle, or the proxy of a
    factory, whose properties are those of the handle and whose call builds
    the tree of the nested schema. *)
Inductive ReadNode :=
| ReadHandle (readCollection : ReadCollection.t)
| ReadProxy (readCollection : ReadCollection.t)
            (apply : string → gmap string ReadNode).

Inductive WriteNode :=
| WriteHandle (writeCollection : WriteCollection.t)
| WriteProxy (writeCollection : WriteCollection.t)
             (apply : string → gmap string WriteNode).

Section ReadTree.
Variables (rootDB : DB) (transaction : Transaction).

(** The body of the [forEach] callback of [convertDB]: what is stored
    under [name].  The call of a proxy is [convertDB] on the nested
    schema, see [readEntry_Factory]. *)
Fixpoint readEntry (nestedPath : option string) (name : string) (collection : entry)
  : ReadNode :=
  let readCollection :=
    ReadCollection.new rootDB transaction name (handle_path nestedPath name) in
  match collection with
  | Factory path call =>
      ReadProxy readCollection (fun id =>
        map_fold (fun name collection (processedDB : gmap string ReadNode) =>
                    <[name := readEntry (Some (path +:+ "/" +:+ id)) name collection]>
                      processedDB)
                 ∅ (call id))
  | Static _ => ReadHandle readCollection
  end.

Definition readDB_convertDB (db : gmap string entry) (nestedPath : option string)
  : gmap string ReadNode :=
  map_fold (fun name collection (processedDB : gmap string ReadNode) =>
              <[name := readEntry nestedPath name collection]> processedDB)
           ∅ db.
End ReadTree.

Section WriteTree.
Variables (rootDB : DB) (transaction : Transaction).

Fixpoint writeEntry (nestedPath : option string) (name : string) (collection : entry)
  : WriteNode :=
  let writeCollection :=
    WriteCollection.new rootDB transaction name (handle_path nestedPath name) in
  match collection with
  | Factory path call =>
      WriteProxy writeCollection (fun id =>
        map_fold (fun name collection (processedDB : gmap string WriteNode) =>
                    <[name := writeEntry (Some (path +:+ "/" +:+ id)) name collection]>
                      processedDB)
                 ∅ (call id))
  | Static _ => WriteHandle writeCollection
  end.

Definition writeDB_convertDB (db : gmap string entry) (nestedPath : option string)
  : gmap string WriteNode :=
  map_fold (fun name collection (processedDB : gmap string WriteNode) =>
              <[name := writeEntry nestedPath name collection]> processedDB)
           ∅ db.
End WriteTree.

(** The db objects live in a store, by location; [rootDB] is an object of
    the store.  [{ ...rootDB }] allocates the copy [filteredDB], the two
    [delete]s act on the copy, and [convertDB] reads the copy. *)
Definition readDB (rootDB : DB) (transaction : Transaction)
    (heap : gmap loc (gmap string entry))
  : gmap string ReadNode * gmap loc (gmap string entry) :=
  let filteredDB := fresh (dom heap) in
  let heap := <[filteredDB := heap !!! rootDB]> heap in
  let heap := alter (delete "id") filteredDB heap in
  let heap := alter (delete "groups") filteredDB heap in
  (readDB_convertDB rootDB transaction (heap !!! filteredDB) None, heap).

Definition writeDB (rootDB : DB) (transaction : Transaction)
    (heap : gmap loc (gmap string entry))
  : gmap string WriteNode * gmap loc (gmap string entry) :=
  let filteredDB := fresh (dom heap) in
  let heap := <[filteredDB := heap !!! rootDB]> heap in
  let heap := alter (delete "id") filteredDB heap in
  let heap := alter (delete "groups") filteredDB heap in
  (writeDB_convertDB rootDB transaction (heap !!! filteredDB) None, heap).

(** ** The transaction *)

(** The callback that [write] hands to [runTransaction], the environment
    having been asserted.  The read callback sees the read tree and reads
    the documents of the database; the write callback sees the write tree
    and the converted read result, and stages writes.  An exception leaves
    the callback: the client then discards what was staged. *)
Definition transaction_write (db : DB)
    (readCallback : gmap string ReadNode → gmap string native →
                    outcome (val read_instance))
    (writeCallback : gmap string WriteNode → val write_instance →
                     gmap Transaction (list write) →
                     outcome (val write_instance * gmap Transaction (list write)))
    (firebaseTransaction : Transaction)
    (firestore : gmap string native)
    (heap : gmap loc (gmap string entry))
    (staged : gmap Transaction (list write))
  : outcome (val plain_instance * gmap loc (gmap string entry)
             * gmap Transaction (list write)) :=
  let '(readTree, heap) := readDB db firebaseTransaction heap in
  readResult ← readCallback readTree firestore;
  let '(writeTree, heap) := writeDB db firebaseTransaction heap in
  result ← readDocsToWriteDocs db firebaseTransaction readResult;
  '(writeResult, staged) ← writeCallback writeTree result staged;
  docs ← writeDocsToDocs db writeResult;
  Return (docs, heap, staged).

(** * Notions of the statements *)

(** The shape of a value, its instances forgotten, and its instances, in
    order. *)
Fixpoint shape {L : Type} (v : val L) : val unit :=
  match v with
  | Prim p => Prim p
  | Arr items => Arr (map shape items)
  | Obj props => Obj (map (fun kv => match kv with (k, x) => (k, shape x) end) props)
  | Inst _ => Inst tt
  end.

Fixpoint instances {L : Type} (v : val L) : list L :=
  match v with
  | Prim _ => []
  | Arr items => flat_map instances items
  | Obj props => flat_map (fun kv => match kv with (_, x) => instances x end) props
  | Inst x => [x]
  end.

(** [w] has the shape of [v], the instances of [v] having become those of
    [w], one by one, as [R] says. *)
Definition same_shape {A B : Type} (R : A → B → Prop) (v : val A) (w : val B) : Prop :=
  shape w = shape v ∧ Forall2 R (instances v) (instances w).


(** Induction on values, through the arrays and the mappings. *)
Section val_ind.
Context {L : Type} (P : val L → Prop).
Hypothesis HPrim : ∀ p, P (Prim p).
Hypothesis HArr : ∀ items, Forall P items → P (Arr items).
Hypothesis HObj : ∀ props, Forall (fun kv => P (snd kv)) props → P (Obj props).
Hypothesis HInst : ∀ x, P (Inst x).

Fixpoint val_ind' (v : val L) : P v :=
  match v with
  | Prim p => HPrim p
  | Arr items =>
      HArr items
        ((fix go (l : list (val L)) : Forall P l :=
            match l with
            | [] => @List.Forall_nil _ P
            | x :: l => @List.Forall_cons _ P x l (val_ind' x) (go l)
            end) items)
  | Obj props =>
      HObj props
        ((fix go (l : list (string * val L)) : Forall (fun kv => P (snd kv)) l :=
            match l with
            | [] => @List.Forall_nil _ _
            | (k, x) :: l => @List.Forall_cons _ _ (k, x) l (val_ind' x) (go l)
            end) props)
  | Inst x => HInst x
  end.
End val_ind.

(** The document of a collection under [db] that a write document
    becomes: the name and the path of the write collection, the same id
    and the same payload. *)
Definition doc_of (db : DB) (doc : WriteDoc.t) : Doc.t :=
  Doc.new
    (Collection.new db
       (WriteCollection.name (WriteRef.collection (WriteDoc.ref doc)))
       (WriteCollection.path (WriteRef.collection (WriteDoc.ref doc))))
    (WriteRef.id (WriteDoc.ref doc))
    (WriteDoc.data doc).

(** A marker is rehydrated by the handle [this]: it becomes the write
    reference that the path resolver makes of its path, bound to the
    transaction of the handle. *)
Definition rehydrated (this : ReadCollection.t) (path : string) (r : reference) : Prop :=
  ∃ w : WriteRef.t,
    r = WriteReference w
    ∧ pathToWriteRef (ReadCollection.db this) (ReadCollection.transaction this) path
      = Return w
    ∧ WriteCollection.transaction (WriteRef.collection w)
      = ReadCollection.transaction this.

Definition is_read_reference (r : reference) : bool :=
  match r with ReadReference _ => true | WriteReference _ => false end.

(** The handle reached in a read tree by calling, for each step
    [(name, id)], the proxy stored under [name] with [id], and by reading
    [name] in the tree that the last call returns. *)
Fixpoint read_handle (tree : gmap string ReadNode) (steps : list (string * string))
    (name : string) : option ReadCollection.t :=
  match steps with
  | [] =>
      match tree !! name with
      | Some (ReadHandle c) | Some (ReadProxy c _) => Some c
      | None => None
      end
  | (proxy, id) :: steps =>
      match tree !! proxy with
      | Some (ReadProxy _ apply) => read_handle (apply id) steps name
      | _ => None
      end
  end.

Fixpoint write_handle (tree : gmap string WriteNode) (steps : list (string * string))
    (name : string) : option WriteCollection.t :=
  match steps with
  | [] =>
      match tree !! name with
      | Some (WriteHandle c) | Some (WriteProxy c _) => Some c
      | None => None
      end
  | (proxy, id) :: steps =>
      match tree !! proxy with
      | Some (WriteProxy _ apply) => write_handle (apply id) steps name
      | _ => None
      end
  end.

(** The same walk in the schema descriptor: the path under which the entry
    [name] is reached, each step calling a factory with an id. *)
Fixpoint schema_path (db : gmap string entry) (nestedPath : option string)
    (steps : list (string * string)) (name : string) : option string :=
  match steps with
  | [] =>
      match db !! name with
      | Some _ => Some (handle_path nestedPath name)
      | None => None
      end
  | (factory, id) :: steps =>
      match db !! factory with
      | Some (Factory path call) =>
          schema_path (call id) (Some (path +:+ "/" +:+ id)) steps name
      | _ => None
      end
  end.

(** The instances on which a converter throws. *)
Definition is_read_ref (x : read_instance) : bool :=
  match x with AReadRef _ => true | AReadDoc _ => false end.

Definition is_write_ref (x : write_instance) : bool :=
  match x with AWriteRef _ => true | AWriteDoc _ => false end.

(** The calls that a transaction has been asked to stage, in order. *)
Definition calls (staged : gmap Transaction (list write)) (transaction : Transaction)
  : list write :=
  default [] (staged !! transaction).


(** From [before] to [after] the transaction has received the calls
    [suffix], after those it had, and no other transaction any. *)
Definition staged_after (transaction : Transaction) (suffix : list write)
    (before after : gmap Transaction (list write)) : Prop :=
  calls after transaction = (calls before transaction ++ suffix)%list
  ∧ ∀ t, t ≠ transaction → after !! t = before !! t.

(** What [set] and [upset] hand to [unwrapData]. *)
Definition set_payload (data : set_data) : payload :=
  match data with SetFunction f => f writeHelpers | SetData d => d end.

(** ** Examples *)

(** A db object: the metadata [id] and [groups], a collection [users] and
    a factory [orgs] whose nested schema has the collections [members] and
    [groups]. *)
Definition example_db : gmap string entry :=
  {[ "id" := Static (Prim (PString "app"));
     "groups" := Static (Obj []);
     "users" := Static (Obj [("name", Prim (PString "users"));
                             ("path", Prim (PString "users"))]);
     "orgs" := Factory "orgs" (fun id =>
                 {[ "members" := Static (Obj [("name", Prim (PString "members"))]);
                    "groups" := Static (Obj [("name", Prim (PString "groups"))]) ]}) ]}.

Definition example_heap : gmap loc (gmap string entry) := {[ 1%positive := example_db ]}.

Definition example_firestore : gmap string native :=
  {[ "users/u1" := Obj [("name", Prim (PString "Sasha")); ("friend", Inst "users/u2")] ]}.

Definition example_users : ReadCollection.t :=
  ReadCollection.new 1%positive 7 "users" "users".



(** The store that a first run of a transaction on [example_heap] leaves:
    the store on which the client's retry runs. *)
Definition example_heap_retry : gmap loc (gmap string entry) :=
  (writeDB 1%positive 7 (readDB 1%positive 7 example_heap).2).2.


(** [({ db }) => db.users.get("u1")] *)
Definition read_user (tree : gmap string ReadNode) (firestore : gmap string native)
  : outcome (val read_instance) :=
  match tree !! "users" with
  | Some (ReadHandle users) | Some (ReadProxy users _) =>
      doc ← ReadCollection_get users "u1" firestore;
      Return (match doc with
              | Some doc => Inst (AReadDoc doc)
              | None => Prim PNull
              end)
  | None => Throw (TypeError "Cannot read properties of undefined (reading 'get')")
  end.

(** [async ({ db }) => (await db.users.get("u1")).ref] *)
Definition read_user_ref (tree : gmap string ReadNode) (firestore : gmap string native)
  : outcome (val read_instance) :=
  match tree !! "users" with
  | Some (ReadHandle users) | Some (ReadProxy users _) =>
      doc ← ReadCollection_get users "u1" firestore;
      match doc with
      | Some doc => Return (Inst (AReadRef (ReadDoc.ref doc)))
      | None => Throw (TypeError "Cannot read properties of null (reading 'ref')")
      end
  | None => Throw (TypeError "Cannot read properties of undefined (reading 'get')")
  end.

(** [({ result }) => result] *)
Definition write_result (tree : gmap string WriteNode) (result : val write_instance)
    (staged : gmap Transaction (list write))
  : outcome (val write_instance * gmap Transaction (list write)) :=
  Return (result, staged).

(** [({ result }) => result.ref], the result being a document. *)
Definition write_ref (tree : gmap string WriteNode) (result : val write_instance)
    (staged : gmap Transaction (list write))
  : outcome (val write_instance * gmap Transaction (list write)) :=
  match result with
  | Inst (AWriteDoc doc) => Return (Inst (AWriteRef (WriteDoc.ref doc)), staged)
  | Prim PNull => Throw (TypeError "Cannot read properties of null (reading 'ref')")
  | Prim PUndefined =>
      Throw (TypeError "Cannot read properties of undefined (reading 'ref')")
  | _ => Return (Prim PUndefined, staged)
  end.

(** [({ result }) => { result.update({ visits: 1 }); return result }], the
    result being a document. *)
Definition write_update (unwrapData : payload → native) (tree : gmap string WriteNode)
    (result : val write_instance) (staged : gmap Transaction (list write))
  : outcome (val write_instance * gmap Transaction (list write)) :=
  match result with
  | Inst (AWriteDoc doc) =>
      Return (result,
              WriteDoc_update unwrapData doc
                (UpdateData (UpdateObject [("visits", Prim (PNumber 1))])) staged)
  | Prim PNull => Throw (TypeError "Cannot read properties of null (reading 'update')")
  | _ => Throw (TypeError "result.update is not a function")
  end.

(** * Properties *)

(** ** The definitions on small inputs *)

Example segments_nested : segments "a/b/c/d" = ["a"; "b"; "c"; "d"].
Proof. reflexivity. Qed.

Example segments_empty_component : segments "a//b" = ["a"; ""; "b"].
Proof. reflexivity. Qed.

Example pathRegExp_match_nested :
  pathRegExp_match "a/b/c/d" = Some (Some "a/b/", "c", "d").
Proof. reflexivity. Qed.

Example pathRegExp_match_two_segments :
  pathRegExp_match "users/u1" = Some (None, "users", "u1").
Proof. reflexivity. Qed.

Example pathRegExp_match_empty_component : pathRegExp_match "a//b" = None.
Proof. reflexivity. Qed.

Example array_set_past_the_end :
  array_set 3 (Prim (L := unit) PNull) [Prim (PBool true)]
  = [Prim (PBool true); Prim PUndefined; Prim PUndefined; Prim PNull].
Proof. reflexivity. Qed.

Example obj_set_existing_key :
  obj_set "a" 3 [("a", 1); ("b", 2)] = [("a", 3); ("b", 2)].
Proof. reflexivity. Qed.

Example updateFields_last_wins :
  updateFields [UpdateField.new "a.b" (Prim (PNumber 1));
                UpdateField.new "c" (Prim PNull);
                UpdateField.new "a.b" (Prim (PNumber 2))]
  = [("a.b", Prim (PNumber 2)); ("c", Prim PNull)].
Proof. reflexivity. Qed.

Example readDocsToWriteDocs_nested_doc :
  let users := ReadCollection.new 1%positive 7 "users" "users" in
  readDocsToWriteDocs 1%positive 7
    (Obj [("count", Prim (PNumber 2));
          ("docs", Arr [Inst (AReadDoc (ReadDoc.new users "u1" (Prim PNull)));
                        Prim (PString "x")])])
  = Return
      (Obj [("count", Prim (PNumber 2));
            ("docs",
             Arr [Inst (AWriteDoc
                          (WriteDoc.new (WriteCollection.new 1%positive 7 "users" "users")
                             "u1" (Prim PNull)));
                  Prim (PString "x")])]).
Proof. reflexivity. Qed.

Example readDB_example :
  let tree := (readDB 1%positive 7 example_heap).1 in
  dom tree = {[ "users"; "orgs" ]}
  ∧ read_handle tree [] "users" = Some (ReadCollection.new 1%positive 7 "users" "users")
  ∧ read_handle tree [] "orgs" = Some (ReadCollection.new 1%positive 7 "orgs" "orgs")
  ∧ read_handle tree [("orgs", "o1")] "groups"
    = Some (ReadCollection.new 1%positive 7 "groups" "orgs/o1/groups")
  ∧ read_handle tree [("users", "u1")] "posts" = None.
Proof. by vm_compute. Qed.

(** ** Strings *)

Lemma append_assoc (a b c : string) : (a +:+ b) +:+ c = a +:+ (b +:+ c).
Proof.
  induction a as [|ch a IH]; [reflexivity |].
  change (String ch ((a +:+ b) +:+ c) = String ch (a +:+ b +:+ c)).
  by rewrite IH.
Qed.

Lemma concat_snoc (sep : string) (l : list string) (x : string) :
  l ≠ [] → String.concat sep (l ++ [x]) = String.concat sep l +:+ sep +:+ x.
Proof.
  induction l as [|y l IH]; [done | intros _].
  destruct l as [|z l]; [reflexivity |].
  change (String.concat sep ((y :: z :: l) ++ [x]))
    with (y +:+ sep +:+ String.concat sep ((z :: l) ++ [x])).
  rewrite IH by done.
  change (String.concat sep (y :: z :: l)) with (y +:+ sep +:+ String.concat sep (z :: l)).
  by rewrite !append_assoc.
Qed.

(** ** The loop of the converters *)





(** ** Shapes *)

Lemma same_shape_Arr {A B : Type} (R : A → B → Prop) (items : list (val A))
    (ws : list (val B)) :
  Forall2 (same_shape R) items ws → same_shape R (Arr items) (Arr ws).
Proof.
  unfold same_shape. simpl.
  induction 1 as [|v w items ws [Hs Hi] _ [IHs IHi]]; [by split; constructor |].
  simpl. split.
  - injection IHs as IHs. by rewrite Hs, IHs.
  - by apply Forall2_app.
Qed.

Lemma same_shape_Obj {A B : Type} (R : A → B → Prop) (props : list (string * val A))
    (ws : list (string * val B)) :
  Forall2 (fun kv kw => fst kw = fst kv ∧ same_shape R (snd kv) (snd kw)) props ws →
  same_shape R (Obj props) (Obj ws).
Proof.
  unfold same_shape. simpl.
  induction 1 as [|[k v] [k' w] props ws [Hk [Hs Hi]] _ [IHs IHi]];
    [by split; constructor |].
  simpl in *. subst k'. split.
  - injection IHs as IHs. by rewrite Hs, IHs.
  - by apply Forall2_app.
Qed.



(** A function that walks arrays and mappings with the loop above and
    leaves primitives alone keeps the shape of a value whose instances it
    converts and whose mappings have distinct keys. *)
Section Converter.
Context {A B : Type} (conv : val A → outcome (val B)) (R : A → B → Prop).
Hypothesis conv_Prim : ∀ p, conv (Prim p) = Return (Prim p).
Hypothesis conv_Arr :
  ∀ items, conv (Arr items) = Arr <$> forEach_items conv items 0%nat [].
Hypothesis conv_Obj :
  ∀ props, conv (Obj props) = Obj <$> forEach_props conv props [].

End Converter.

(** ** The converters on a document and on a reference *)

(** C1: converting a read document yields a write document bound to the
    same transaction (and the same db), whose collection name and path,
    document id and data payload are those of the read document. *)
Theorem readDocsToWriteDocs_ReadDoc (db : DB) (transaction : Transaction)
    (doc : ReadDoc.t) :
  ∃ w : WriteDoc.t,
    readDocsToWriteDocs db transaction (Inst (AReadDoc doc)) = Return (Inst (AWriteDoc w))
    ∧ WriteCollection.transaction (WriteRef.collection (WriteDoc.ref w))
      = ReadCollection.transaction (ReadRef.collection (ReadDoc.ref doc))
    ∧ WriteCollection.db (WriteRef.collection (WriteDoc.ref w))
      = ReadCollection.db (ReadRef.collection (ReadDoc.ref doc))
    ∧ WriteRef.id (WriteDoc.ref w) = ReadRef.id (ReadDoc.ref doc)
    ∧ WriteDoc.data w = ReadDoc.data doc
    ∧ WriteCollection.path (WriteRef.collection (WriteDoc.ref w))
      = ReadCollection.path (ReadRef.collection (ReadDoc.ref doc))
    ∧ WriteCollection.name (WriteRef.collection (WriteDoc.ref w))
      = ReadCollection.name (ReadRef.collection (ReadDoc.ref doc)).
Proof. exists (WriteDoc.fromRead doc). by repeat split. Qed.

(** The document that [get] returns is the document of the handle and the
    id: its conversion is the write document of the same collection, id
    and payload. *)
Lemma readDocsToWriteDocs_of_get (db : DB) (transaction : Transaction)
    (this : ReadCollection.t) (id : string) (firestore : gmap string native)
    (doc : ReadDoc.t) :
  ReadCollection_get this id firestore = Return (Some doc) →
  readDocsToWriteDocs db transaction (Inst (AReadDoc doc))
  = Return (Inst (AWriteDoc
              (WriteDoc.new (WriteCollection.fromRead this) id (ReadDoc.data doc)))).
Proof.
  unfold ReadCollection_get.
  destruct (firestore !! _) as [data|]; [| done].
  destruct (wrapData _ _ _) as [w|e]; [| done].
  simpl. by intros [= <-].
Qed.

(** C2: the converter does not return on a read reference: it throws a
    [ReferenceError], the class it names being bound nowhere. *)
Theorem readDocsToWriteDocs_ReadRef_throws (db : DB) (transaction : Transaction)
    (ref : ReadRef.t) :
  readDocsToWriteDocs db transaction (Inst (AReadRef ref))
  = Throw (ReferenceError "WriteRead is not defined").
Proof. reflexivity. Qed.

(** C5: an array holding a primitive and a read reference is not
    converted: the exception of the reference leaf leaves the converter. *)
Theorem readDocsToWriteDocs_nested_ReadRef_throws :
  readDocsToWriteDocs 1%positive 7
    (Arr [Prim (PNumber 1);
          Inst (AReadRef (ReadRef.new (ReadCollection.new 1%positive 7 "users" "users") "u1"))])
  = Throw (ReferenceError "WriteRead is not defined").
Proof. reflexivity. Qed.


Lemma readDocsToWriteDocs_Prim (db : DB) (transaction : Transaction) (p : prim) :
  readDocsToWriteDocs db transaction (Prim p) = Return (Prim p).
Proof. reflexivity. Qed.

(** C8: the output converter does not return on a write reference: it
    throws a [TypeError]. *)
Theorem writeDocsToDocs_WriteRef_throws (db : DB) (ref : WriteRef.t) :
  writeDocsToDocs db (Inst (AWriteRef ref))
  = Throw (TypeError "Cannot read properties of undefined (reading 'collection')").
Proof. reflexivity. Qed.

(** A write document becomes the document [doc_of] of it. *)
Lemma writeDocsToDocs_WriteDoc (db : DB) (doc : WriteDoc.t) :
  writeDocsToDocs db (Inst (AWriteDoc doc)) = Return (Inst (ADoc (doc_of db doc))).
Proof. reflexivity. Qed.


(** ** The path resolver *)

(** C4: on every path the resolver either throws an error that names the
    path, or returns the write reference whose collection is named by the
    segment before the last, whose collection path joins the nested prefix
    and that name with slashes, and whose id is the last segment; on
    ["a/b/c/d"] the prefix is ["a/b"], the collection ["c"], its path
    ["a/b/c"] and the id ["d"]; a single segment is not parsed. *)
Theorem pathToWriteRef_spec (db : DB) (transaction : Transaction) (path : string) :
  ((pathRegExp_match path = None
    ∧ pathToWriteRef db transaction path = Throw (Error ("Can't parse path " +:+ path)))
   ∨ (∃ (prefix : list string) (name id : string),
        segments path = (prefix ++ [name; id])%list
        ∧ pathToWriteRef db transaction path
          = Return (WriteRef.new
                      (WriteCollection.new db transaction name
                         (String.concat "/" (prefix ++ [name])))
                      id)))
  ∧ segments "a/b/c/d" = (["a"; "b"] ++ ["c"; "d"])%list
  ∧ String.concat "/" ["a"; "b"] = "a/b"
  ∧ pathToWriteRef db transaction "a/b/c/d"
    = Return (WriteRef.new (WriteCollection.new db transaction "c" "a/b/c") "d")
  ∧ pathToWriteRef db transaction "users" = Throw (Error "Can't parse path users").
Proof.
  split; [| by repeat split].
  unfold pathToWriteRef, pathRegExp_match.
  destruct (forallb nonempty (segments path)); [| by left].
  destruct (rev (segments path)) as [|id [|name rprefix]] eqn:Hrev;
    [by left | by left | right].
  exists (rev rprefix), name, id.
  assert (segments path = (rev rprefix ++ [name; id])%list) as Hsegs.
  { rewrite <- (rev_involutive (segments path)), Hrev. simpl.
    by rewrite <- app_assoc. }
  split; [exact Hsegs |].
  destruct rprefix as [|seg rprefix]; [reflexivity |].
  assert (rev (seg :: rprefix) ≠ []) as Hne.
  { simpl. by destruct (rev rprefix). }
  generalize dependent (rev (seg :: rprefix)). intros prefix _ Hne.
  simpl. by rewrite concat_snoc, append_assoc.
Qed.

(** A path of fewer than two segments is not parsed. *)
Lemma pathRegExp_match_short (path : string) :
  length (segments path) < 2 → pathRegExp_match path = None.
Proof.
  intros Hlen. unfold pathRegExp_match.
  destruct (forallb nonempty (segments path)); [| done].
  rewrite <- length_rev in Hlen.
  destruct (rev (segments path)) as [|id [|name rprefix]]; [done | done |].
  simpl in Hlen. lia.
Qed.

(** ** Vacuous updates *)

Lemma updateFields_nil : updateFields [] = [].
Proof. reflexivity. Qed.

(** C6: [update] with [undefined], with [{}] or with [[]], given as data
    or yielded by a function of the update helpers, stages nothing: the
    calls received by every transaction are what they were. *)
Theorem WriteCollection_update_empty (unwrapData : payload → native)
    (this : WriteCollection.t) (id : string) (staged : gmap Transaction (list write)) :
  WriteCollection_update unwrapData this id (UpdateData (UpdatePrim PUndefined)) staged = staged
  ∧ WriteCollection_update unwrapData this id (UpdateData (UpdateObject [])) staged = staged
  ∧ WriteCollection_update unwrapData this id (UpdateData (UpdateArray [])) staged = staged
  ∧ WriteCollection_update unwrapData this id
      (UpdateFunction (fun _ => UpdatePrim PUndefined)) staged = staged
  ∧ WriteCollection_update unwrapData this id
      (UpdateFunction (fun _ => UpdateObject [])) staged = staged
  ∧ WriteCollection_update unwrapData this id
      (UpdateFunction (fun _ => UpdateArray [])) staged = staged.
Proof. by repeat split. Qed.

(** An update that has a key is staged: [update] is called once on the
    transaction of the collection, on the document of the id. *)
Lemma WriteCollection_update_staged (unwrapData : payload → native)
    (this : WriteCollection.t) (id key : string) (v : payload)
    (props : list (string * payload)) (staged : gmap Transaction (list write)) :
  WriteCollection_update unwrapData this id (UpdateData (UpdateObject ((key, v) :: props)))
    staged
  = stage (WriteCollection.transaction this)
      (TxUpdate (WriteCollection.path this +:+ "/" +:+ id)
         (unwrapData (Obj ((key, v) :: props))))
      staged.
Proof. reflexivity. Qed.

(** ** Reading a document *)

Section wrapData.
Variables (db : DB) (ref : DB → string → outcome reference).
Variable Q : string → reference → Prop.

Lemma wrapData_Arr (items : list native) :
  wrapData db (Arr items) ref = Arr <$> mapM (fun v => wrapData db v ref) items.
Proof. reflexivity. Qed.

Lemma wrapData_Obj (props : list (string * native)) :
  wrapData db (Obj props) ref
  = Obj <$> mapM (fun kv => match kv with
                            | (k, v) => w ← wrapData db v ref; mret (k, w)
                            end) props.
Proof. reflexivity. Qed.

(** When the resolver returns on every marker, [wrapData] returns a
    payload of the same shape, the markers resolved. *)
Lemma wrapData_resolved (data : native) :
  Forall (fun path => ∃ r, ref db path = Return r ∧ Q path r) (instances data) →
  ∃ w, wrapData db data ref = Return w ∧ same_shape Q data w.
Proof.
  induction data as [p | items IH | props IH | path] using val_ind'; intros Hres.
  - exists (Prim p). by repeat split; simpl; try constructor.
  - assert (∃ ws, mapM (fun v => wrapData db v ref) items = Return ws
                  ∧ Forall2 (same_shape Q) items ws) as (ws & Hws & Hall).
    { simpl in Hres. induction IH as [|v items Hv _ IHitems].
      - exists []. by split; [| constructor].
      - simpl in Hres. apply Forall_app in Hres as [Hhd Htl].
        destruct (Hv Hhd) as (w & Hw & Hwrapped).
        destruct (IHitems Htl) as (ws & Hws & Hall).
        exists (w :: ws). split; [| by constructor].
        simpl. rewrite Hw. simpl. by rewrite Hws. }
    exists (Arr ws). split; [by rewrite wrapData_Arr, Hws |].
    by apply same_shape_Arr.
  - assert (∃ ws, mapM (fun kv => match kv with
                                  | (k, v) => w ← wrapData db v ref; mret (k, w)
                                  end) props = Return ws
                  ∧ Forall2 (fun kv kw => fst kw = fst kv
                                          ∧ same_shape Q (snd kv) (snd kw))
                            props ws) as (ws & Hws & Hall).
    { simpl in Hres. induction IH as [|[k v] props Hv _ IHprops].
      - exists []. by split; [| constructor].
      - simpl in Hres. apply Forall_app in Hres as [Hhd Htl].
        destruct (Hv Hhd) as (w & Hw & Hwrapped).
        destruct (IHprops Htl) as (ws & Hws & Hall).
        exists ((k, w) :: ws). split; [| by constructor].
        simpl in *. rewrite Hw. simpl. by rewrite Hws. }
    exists (Obj ws). split; [by rewrite wrapData_Obj, Hws |].
    by apply same_shape_Obj.
  - simpl in Hres. apply Forall_inv in Hres as (r & Hr & HQ).
    exists (Inst r). split; [simpl; by rewrite Hr |].
    split; [reflexivity | by repeat constructor].
Qed.
End wrapData.

Lemma pathToWriteRef_transaction (db : DB) (transaction : Transaction) (path : string)
    (w : WriteRef.t) :
  pathToWriteRef db transaction path = Return w →
  WriteCollection.transaction (WriteRef.collection w) = transaction.
Proof.
  unfold pathToWriteRef.
  destruct (pathRegExp_match path) as [[[nestedPath name] id]|]; [| done].
  by intros [= <-].
Qed.

Lemma pathToWriteRef_parses (db : DB) (transaction : Transaction) (path : string) :
  is_Some (pathRegExp_match path) → ∃ w, pathToWriteRef db transaction path = Return w.
Proof.
  intros [[[nestedPath name] id] Hm]. unfold pathToWriteRef. rewrite Hm. eauto.
Qed.

(** C3 (as amended): [get] returns [null] exactly when the snapshot does
    not exist; when it exists and the path of every embedded marker is
    parsed, [get] returns the read document of the handle and the id whose
    payload has the shape of the snapshot data, every marker having become
    the write reference of its path, bound to the same transaction. *)
Theorem ReadCollection_get_spec (this : ReadCollection.t) (id : string)
    (firestore : gmap string native) :
  (ReadCollection_get this id firestore = Return None
   ↔ firestore !! (ReadCollection.path this +:+ "/" +:+ id) = None)
  ∧ ∀ data : native,
      firestore !! (ReadCollection.path this +:+ "/" +:+ id) = Some data →
      Forall (fun path => is_Some (pathRegExp_match path)) (instances data) →
      ∃ w : payload,
        ReadCollection_get this id firestore = Return (Some (ReadDoc.new this id w))
        ∧ same_shape (rehydrated this) data w.
Proof.
  unfold ReadCollection_get. split.
  - destruct (firestore !! _) as [data|]; [| done].
    split; [| done]. by destruct (wrapData _ _ _).
  - intros data -> Hparse.
    destruct (wrapData_resolved (ReadCollection.db this)
                (fun db path =>
                   WriteReference <$>
                     pathToWriteRef db (ReadCollection.transaction this) path)
                (rehydrated this) data) as (w & Hw & Hsame).
    { eapply Forall_impl; [exact Hparse |]. intros path Hpath. simpl.
      destruct (pathToWriteRef_parses (ReadCollection.db this)
                  (ReadCollection.transaction this) path Hpath) as [r Hr].
      exists (WriteReference r). rewrite Hr. split; [done |].
      exists r. repeat split; [done |]. by eapply pathToWriteRef_transaction. }
    exists w. by rewrite Hw.
Qed.

Lemma ReadCollection_get_spec_witness :
  let users := ReadCollection.new 1%positive 7 "users" "users" in
  let data : native := Obj [("name", Prim (PString "Sasha")); ("friend", Inst "users/u2")] in
  example_firestore !! (ReadCollection.path users +:+ "/" +:+ "u1") = Some data
  ∧ Forall (fun path => is_Some (pathRegExp_match path)) (instances data)
  ∧ ∃ w : payload,
      ReadCollection_get users "u1" example_firestore
      = Return (Some (ReadDoc.new users "u1" w))
      ∧ same_shape (rehydrated users) data w.
Proof.
  intros users data.
  assert (example_firestore !! (ReadCollection.path users +:+ "/" +:+ "u1") = Some data)
    as Hdoc by reflexivity.
  assert (Forall (fun path => is_Some (pathRegExp_match path)) (instances data)) as Hparse
    by (repeat constructor; vm_compute; eauto).
  split; [exact Hdoc |]. split; [exact Hparse |].
  exact (proj2 (ReadCollection_get_spec users "u1" example_firestore) data Hdoc Hparse).
Defined.

(** C3 (as stated) fails: the reference embedded in the payload that [get]
    returns is a write reference, not a read reference. *)
Lemma ReadCollection_get_read_reference_counterexample :
  ¬ (∀ (this : ReadCollection.t) (id : string) (firestore : gmap string native)
       (doc : ReadDoc.t),
       ReadCollection_get this id firestore = Return (Some doc) →
       Forall (fun r => is_read_reference r = true) (instances (ReadDoc.data doc))).
Proof.
  intros Hclaim.
  pose (users := ReadCollection.new 1%positive 7 "users" "users").
  pose (friend := WriteRef.new (WriteCollection.new 1%positive 7 "users" "users") "u2").
  specialize (Hclaim users "u1" example_firestore
                (ReadDoc.new users "u1"
                   (Obj [("name", Prim (PString "Sasha"));
                         ("friend", Inst (WriteReference friend))]))
                eq_refl).
  apply Forall_inv in Hclaim. discriminate Hclaim.
Qed.

(** ** The proxy trees *)

(** A fold that inserts, under every key of a map, [f] of what the map
    holds there, looks up like the map. *)
Ltac fold_inserts f name :=
  apply (map_fold_weak_ind (fun r m => r !! name = f <$> m !! name));
  [ by rewrite !lookup_empty
  | let i := fresh "i" in
    intros i ? ? ? _ ?; destruct (decide (i = name)) as [->|];
    [ by rewrite !lookup_insert_eq | by rewrite !lookup_insert_ne ] ].

(** The store after the copy of [rootDB] has lost [id] and [groups]: the
    copy is read back filtered, and the copy being fresh, every object
    that was in the store is where it was. *)
Ltac copy_then_delete heap Hdb :=
  simpl; split;
  [ rewrite (lookup_total_alt (alter _ _ _)), !lookup_alter_eq, lookup_insert_eq;
    simpl; by rewrite (lookup_total_correct _ _ _ Hdb)
  | let l := fresh "l" in
    let Hl := fresh "Hl" in
    intros l Hl;
    assert (fresh (dom heap) ≠ l)
      by (intros <-; apply elem_of_dom in Hl; by apply (is_fresh (dom heap)));
    by rewrite !lookup_alter_ne, lookup_insert_ne ].

Section Trees.
Variables (rootDB : DB) (transaction : Transaction).

Lemma readDB_convertDB_lookup (db : gmap string entry) (nestedPath : option string)
    (name : string) :
  readDB_convertDB rootDB transaction db nestedPath !! name
  = readEntry rootDB transaction nestedPath name <$> db !! name.
Proof.
  unfold readDB_convertDB.
  fold_inserts (readEntry rootDB transaction nestedPath name) name.
Qed.

Lemma writeDB_convertDB_lookup (db : gmap string entry) (nestedPath : option string)
    (name : string) :
  writeDB_convertDB rootDB transaction db nestedPath !! name
  = writeEntry rootDB transaction nestedPath name <$> db !! name.
Proof.
  unfold writeDB_convertDB.
  fold_inserts (writeEntry rootDB transaction nestedPath name) name.
Qed.

(** Calling a proxy converts the nested schema of the factory, under the
    path of the factory and the id. *)
Lemma readEntry_Factory (nestedPath : option string) (name path : string)
    (call : string → gmap string entry) :
  readEntry rootDB transaction nestedPath name (Factory path call)
  = ReadProxy
      (ReadCollection.new rootDB transaction name (handle_path nestedPath name))
      (fun id => readDB_convertDB rootDB transaction (call id)
                   (Some (path +:+ "/" +:+ id))).
Proof. reflexivity. Qed.

Lemma writeEntry_Factory (nestedPath : option string) (name path : string)
    (call : string → gmap string entry) :
  writeEntry rootDB transaction nestedPath name (Factory path call)
  = WriteProxy
      (WriteCollection.new rootDB transaction name (handle_path nestedPath name))
      (fun id => writeDB_convertDB rootDB transaction (call id)
                   (Some (path +:+ "/" +:+ id))).
Proof. reflexivity. Qed.

Lemma readDB_convertDB_dom (db : gmap string entry) (nestedPath : option string) :
  dom (readDB_convertDB rootDB transaction db nestedPath) = dom db.
Proof.
  apply set_eq. intros name.
  rewrite !elem_of_dom, readDB_convertDB_lookup. by rewrite fmap_is_Some.
Qed.

Lemma writeDB_convertDB_dom (db : gmap string entry) (nestedPath : option string) :
  dom (writeDB_convertDB rootDB transaction db nestedPath) = dom db.
Proof.
  apply set_eq. intros name.
  rewrite !elem_of_dom, writeDB_convertDB_lookup. by rewrite fmap_is_Some.
Qed.

(** The handles of a read tree are those of the schema, each with its
    name and the path of the walk. *)
Lemma read_handle_convertDB (steps : list (string * string)) :
  ∀ (db : gmap string entry) (nestedPath : option string) (name : string),
    read_handle (readDB_convertDB rootDB transaction db nestedPath) steps name
    = ReadCollection.new rootDB transaction name
        <$> schema_path db nestedPath steps name.
Proof.
  induction steps as [|[proxy id] steps IH]; intros db nestedPath name; simpl.
  - rewrite readDB_convertDB_lookup.
    by destruct (db !! name) as [[descriptor|path call]|].
  - rewrite readDB_convertDB_lookup.
    destruct (db !! proxy) as [[descriptor|path call]|]; [done | | done].
    simpl. apply IH.
Qed.

Lemma write_handle_convertDB (steps : list (string * string)) :
  ∀ (db : gmap string entry) (nestedPath : option string) (name : string),
    write_handle (writeDB_convertDB rootDB transaction db nestedPath) steps name
    = WriteCollection.new rootDB transaction name
        <$> schema_path db nestedPath steps name.
Proof.
  induction steps as [|[proxy id] steps IH]; intros db nestedPath name; simpl.
  - rewrite writeDB_convertDB_lookup.
    by destruct (db !! name) as [[descriptor|path call]|].
  - rewrite writeDB_convertDB_lookup.
    destruct (db !! proxy) as [[descriptor|path call]|]; [done | | done].
    simpl. apply IH.
Qed.

(** What [readDB] and [writeDB] return on a store that holds [rootDB]:
    the tree of the filtered copy, and a store in which every object that
    was there is what it was. *)
Lemma readDB_eq (heap : gmap loc (gmap string entry)) (db : gmap string entry) :
  heap !! rootDB = Some db →
  (readDB rootDB transaction heap).1
  = readDB_convertDB rootDB transaction (delete "groups" (delete "id" db)) None
  ∧ ∀ l, is_Some (heap !! l) → (readDB rootDB transaction heap).2 !! l = heap !! l.
Proof.
  intros Hdb. unfold readDB. by copy_then_delete heap Hdb.
Qed.

Lemma writeDB_eq (heap : gmap loc (gmap string entry)) (db : gmap string entry) :
  heap !! rootDB = Some db →
  (writeDB rootDB transaction heap).1
  = writeDB_convertDB rootDB transaction (delete "groups" (delete "id" db)) None
  ∧ ∀ l, is_Some (heap !! l) → (writeDB rootDB transaction heap).2 !! l = heap !! l.
Proof.
  intros Hdb. unfold writeDB. by copy_then_delete heap Hdb.
Qed.
End Trees.

(** C7: the read tree and the write tree built from the same db object
    have the same handles: wherever a walk of calls leads, both have a
    handle exactly for the entries of the schema there (the reserved keys
    of the db object apart), with the same name and the same path. *)
Theorem readDB_writeDB_same_handles (rootDB : DB) (transaction : Transaction)
    (heap : gmap loc (gmap string entry)) (db : gmap string entry)
    (steps : list (string * string)) (name : string) :
  heap !! rootDB = Some db →
  let readTree := (readDB rootDB transaction heap).1 in
  let writeTree := (writeDB rootDB transaction (readDB rootDB transaction heap).2).1 in
  read_handle readTree steps name
  = ReadCollection.new rootDB transaction name
      <$> schema_path (delete "groups" (delete "id" db)) None steps name
  ∧ write_handle writeTree steps name
    = WriteCollection.new rootDB transaction name
        <$> schema_path (delete "groups" (delete "id" db)) None steps name
  ∧ (fun c => (ReadCollection.name c, ReadCollection.path c))
      <$> read_handle readTree steps name
    = (fun c => (WriteCollection.name c, WriteCollection.path c))
        <$> write_handle writeTree steps name.
Proof.
  intros Hdb readTree writeTree.
  destruct (readDB_eq rootDB transaction heap db Hdb) as [Hread Hheap].
  assert ((readDB rootDB transaction heap).2 !! rootDB = Some db) as Hdb'.
  { rewrite Hheap; [exact Hdb | eauto]. }
  destruct (writeDB_eq rootDB transaction _ db Hdb') as [Hwrite _].
  assert (read_handle readTree steps name
          = ReadCollection.new rootDB transaction name
              <$> schema_path (delete "groups" (delete "id" db)) None steps name) as Hr.
  { unfold readTree. rewrite Hread. apply read_handle_convertDB. }
  assert (write_handle writeTree steps name
          = WriteCollection.new rootDB transaction name
              <$> schema_path (delete "groups" (delete "id" db)) None steps name) as Hw.
  { unfold writeTree. rewrite Hwrite. apply write_handle_convertDB. }
  split; [exact Hr |]. split; [exact Hw |].
  rewrite Hr, Hw. by destruct (schema_path _ _ _ _).
Qed.

Lemma readDB_writeDB_same_handles_witness :
  let readTree := (readDB 1%positive 7 example_heap).1 in
  let writeTree := (writeDB 1%positive 7 (readDB 1%positive 7 example_heap).2).1 in
  example_heap !! 1%positive = Some example_db
  ∧ read_handle readTree [("orgs", "o1")] "members"
    = Some (ReadCollection.new 1%positive 7 "members" "orgs/o1/members")
  ∧ write_handle writeTree [("orgs", "o1")] "members"
    = Some (WriteCollection.new 1%positive 7 "members" "orgs/o1/members").
Proof.
  intros readTree writeTree.
  assert (example_heap !! 1%positive = Some example_db) as Hdb by reflexivity.
  split; [exact Hdb |].
  destruct (readDB_writeDB_same_handles 1%positive 7 example_heap example_db
              [("orgs", "o1")] "members" Hdb) as (Hr & Hw & _).
  split; [exact Hr | exact Hw].
Defined.

(** C9 (as stated) fails: the nested schema of the factory [orgs] has a
    collection named [groups], and the tree that the proxy returns has a
    handle for it. *)
Lemma reserved_keys_nested_counterexample :
  ¬ (∀ (rootDB : DB) (transaction : Transaction) (heap : gmap loc (gmap string entry))
       (db : gmap string entry) (steps : list (string * string)),
       heap !! rootDB = Some db →
       read_handle (readDB rootDB transaction heap).1 steps "groups" = None
       ∧ read_handle (readDB rootDB transaction heap).1 steps "id" = None
       ∧ write_handle (writeDB rootDB transaction heap).1 steps "groups" = None
       ∧ write_handle (writeDB rootDB transaction heap).1 steps "id" = None).
Proof.
  intros Hclaim.
  destruct (Hclaim 1%positive 7 example_heap example_db [("orgs", "o1")] eq_refl)
    as [Hgroups _].
  vm_compute in Hgroups. discriminate Hgroups.
Qed.

(** C9 (as amended): the trees have an entry for every key of the db
    object except [id] and [groups], which are deleted from its copy; the
    nested schema that a factory returns is converted in full: the tree
    that the proxy returns has an entry for each of its keys. *)
Theorem reserved_keys_top_level (rootDB : DB) (transaction : Transaction)
    (heap : gmap loc (gmap string entry)) (db : gmap string entry) :
  heap !! rootDB = Some db →
  let readTree := (readDB rootDB transaction heap).1 in
  let writeTree := (writeDB rootDB transaction (readDB rootDB transaction heap).2).1 in
  dom readTree = dom db ∖ {[ "id"; "groups" ]}
  ∧ dom writeTree = dom db ∖ {[ "id"; "groups" ]}
  ∧ (∀ (name path : string) (call : string → gmap string entry),
       db !! name = Some (Factory path call) → name ≠ "id" → name ≠ "groups" →
       ∃ rc wc (rapply : string → gmap string ReadNode)
           (wapply : string → gmap string WriteNode),
         readTree !! name = Some (ReadProxy rc rapply)
         ∧ writeTree !! name = Some (WriteProxy wc wapply)
         ∧ ∀ id, dom (rapply id) = dom (call id) ∧ dom (wapply id) = dom (call id))
  ∧ ∀ (steps : list (string * string)) (name : string),
      read_handle readTree steps name
      = ReadCollection.new rootDB transaction name
          <$> schema_path (delete "groups" (delete "id" db)) None steps name
      ∧ write_handle writeTree steps name
        = WriteCollection.new rootDB transaction name
            <$> schema_path (delete "groups" (delete "id" db)) None steps name.
Proof.
  intros Hdb readTree writeTree.
  destruct (readDB_eq rootDB transaction heap db Hdb) as [Hread Hheap].
  assert ((readDB rootDB transaction heap).2 !! rootDB = Some db) as Hdb'.
  { rewrite Hheap; [exact Hdb | eauto]. }
  destruct (writeDB_eq rootDB transaction _ db Hdb') as [Hwrite _].
  unfold readTree, writeTree. rewrite Hread, Hwrite.
  rewrite readDB_convertDB_dom, writeDB_convertDB_dom, !dom_delete_L.
  assert (dom db ∖ {["id"]} ∖ {["groups"]} = dom db ∖ {[ "id"; "groups" ]}) as ->.
  { apply set_eq. intros key.
    rewrite !elem_of_difference, elem_of_union, !elem_of_singleton. tauto. }
  split; [reflexivity |]. split; [reflexivity |].
  split.
  - intros name path call Hname Hid Hgroups.
    exists (ReadCollection.new rootDB transaction name name),
           (WriteCollection.new rootDB transaction name name),
           (fun id => readDB_convertDB rootDB transaction (call id)
                        (Some (path +:+ "/" +:+ id))),
           (fun id => writeDB_convertDB rootDB transaction (call id)
                        (Some (path +:+ "/" +:+ id))).
    rewrite readDB_convertDB_lookup, writeDB_convertDB_lookup.
    rewrite !lookup_delete_ne, Hname by done.
    split; [reflexivity |]. split; [reflexivity |].
    intros id. by rewrite readDB_convertDB_dom, writeDB_convertDB_dom.
  - intros steps name. split.
    + apply read_handle_convertDB.
    + apply write_handle_convertDB.
Qed.

Lemma reserved_keys_top_level_witness :
  let readTree := (readDB 1%positive 7 example_heap).1 in
  let writeTree := (writeDB 1%positive 7 (readDB 1%positive 7 example_heap).2).1 in
  example_heap !! 1%positive = Some example_db
  ∧ dom readTree = dom example_db ∖ {[ "id"; "groups" ]}
  ∧ dom writeTree = dom example_db ∖ {[ "id"; "groups" ]}
  ∧ read_handle readTree [("orgs", "o1")] "groups"
    = Some (ReadCollection.new 1%positive 7 "groups" "orgs/o1/groups").
Proof.
  intros readTree writeTree.
  assert (example_heap !! 1%positive = Some example_db) as Hdb by reflexivity.
  split; [exact Hdb |].
  destruct (reserved_keys_top_level 1%positive 7 example_heap example_db Hdb)
    as (Hr & Hw & _ & Hnested).
  split; [exact Hr |]. split; [exact Hw |].
  exact (proj1 (Hnested [("orgs", "o1")] "groups")).
Defined.

(** C10: building a tree leaves the db object as it was: after [readDB]
    and after [writeDB] the store holds under [rootDB] the object it held
    before, with all its entries, and so for every other object of the
    store; the deletions went to the copy. *)
Theorem readDB_writeDB_keep_db (rootDB : DB) (transaction : Transaction)
    (heap : gmap loc (gmap string entry)) (db : gmap string entry) :
  heap !! rootDB = Some db →
  (readDB rootDB transaction heap).2 !! rootDB = Some db
  ∧ (writeDB rootDB transaction heap).2 !! rootDB = Some db
  ∧ ∀ l, is_Some (heap !! l) →
         (readDB rootDB transaction heap).2 !! l = heap !! l
         ∧ (writeDB rootDB transaction heap).2 !! l = heap !! l.
Proof.
  intros Hdb.
  destruct (readDB_eq rootDB transaction heap db Hdb) as [_ Hread].
  destruct (writeDB_eq rootDB transaction heap db Hdb) as [_ Hwrite].
  split; [rewrite Hread; [exact Hdb | eauto] |].
  split; [rewrite Hwrite; [exact Hdb | eauto] |].
  intros l Hl. by split; [apply Hread | apply Hwrite].
Qed.

Lemma readDB_writeDB_keep_db_witness :
  example_heap !! 1%positive = Some example_db
  ∧ (readDB 1%positive 7 example_heap).2 !! 1%positive = Some example_db
  ∧ (writeDB 1%positive 7 example_heap).2 !! 1%positive = Some example_db
  ∧ is_Some (example_db !! "id") ∧ is_Some (example_db !! "groups").
Proof.
  assert (example_heap !! 1%positive = Some example_db) as Hdb by reflexivity.
  split; [exact Hdb |].
  destruct (readDB_writeDB_keep_db 1%positive 7 example_heap example_db Hdb)
    as (Hr & Hw & _).
  split; [exact Hr |]. split; [exact Hw |].
  split; vm_compute; eauto.
Defined.

(** ** The transaction *)

(** A transaction that reads a document and updates it returns the
    document re-parented under the db, and has staged the update. *)
Lemma transaction_write_update (unwrapData : payload → native) :
  match transaction_write 1%positive read_user (write_update unwrapData) 7
          example_firestore example_heap ∅ with
  | Return (docs, heap, staged) =>
      docs = Inst (ADoc (Doc.new (Collection.new 1%positive "users" "users") "u1"
               (Obj [("name", Prim (PString "Sasha"));
                     ("friend",
                      Inst (WriteReference
                              (WriteRef.new
                                 (WriteCollection.new 1%positive 7 "users" "users")
                                 "u2")))])))
      ∧ staged = {[ 7 := [TxUpdate "users/u1"
                            (unwrapData (Obj [("visits", Prim (PNumber 1))]))] ]}
      ∧ heap !! 1%positive = Some example_db
  | Throw _ => False
  end.
Proof. vm_compute. by repeat split. Qed.

(** A transaction whose write callback returns the reference of the
    document it has read throws: the output converter meets a write
    reference. *)
Lemma transaction_write_ref_throws :
  transaction_write 1%positive read_user write_ref 7 example_firestore example_heap ∅
  = Throw (TypeError "Cannot read properties of undefined (reading 'collection')").
Proof. reflexivity. Qed.

(** A transaction whose read callback returns the reference of the
    document it has read throws before the write callback is called: the
    read-to-write converter meets a read reference. *)
Lemma transaction_read_ref_throws :
  transaction_write 1%positive read_user_ref write_result 7
    example_firestore example_heap ∅
  = Throw (ReferenceError "WriteRead is not defined").
Proof. reflexivity. Qed.

(** * Further properties *)

(** ** When a converter returns *)

Lemma existsb_flat_map {A B : Type} (f : B → bool) (g : A → list B) (l : list A) :
  existsb f (flat_map g l) = existsb (fun x => existsb f (g x)) l.
Proof.
  induction l as [|x l IH]; [reflexivity |].
  simpl. by rewrite existsb_app, IH.
Qed.

(** The loop throws what [f] throws on the first entry on which it
    throws, and returns when [f] returns on every entry. *)
Lemma forEach_items_outcome {A B : Type} (f : val A → outcome (val B)) (E0 : error)
    (bad : val A → bool) (entries : list (val A)) :
  Forall (fun v => if bad v then f v = Throw E0 else ∃ w, f v = Return w) entries →
  ∀ key processedData,
    if existsb bad entries
    then forEach_items f entries key processedData = Throw E0
    else ∃ ws, forEach_items f entries key processedData = Return ws.
Proof.
  induction 1 as [|v entries Hv _ IH]; intros key processedData; simpl; [eauto |].
  destruct (bad v); simpl.
  - by rewrite Hv.
  - destruct Hv as [w ->]. simpl. apply IH.
Qed.

Lemma forEach_props_outcome {A B : Type} (f : val A → outcome (val B)) (E0 : error)
    (bad : val A → bool) (entries : list (string * val A)) :
  Forall (fun kv => if bad (snd kv) then f (snd kv) = Throw E0
                    else ∃ w, f (snd kv) = Return w) entries →
  ∀ processedData,
    if existsb (fun kv => bad (snd kv)) entries
    then forEach_props f entries processedData = Throw E0
    else ∃ ws, forEach_props f entries processedData = Return ws.
Proof.
  induction 1 as [|[k v] entries Hv _ IH]; intros processedData; simpl; [eauto |].
  simpl in Hv. destruct (bad v); simpl.
  - by rewrite Hv.
  - destruct Hv as [w ->]. simpl. apply IH.
Qed.

Section ConverterOutcome.
Context {A B : Type} (conv : val A → outcome (val B)) (bad : A → bool) (E0 : error).
Hypothesis conv_Prim : ∀ p, conv (Prim p) = Return (Prim p).
Hypothesis conv_Arr :
  ∀ items, conv (Arr items) = Arr <$> forEach_items conv items 0%nat [].
Hypothesis conv_Obj :
  ∀ props, conv (Obj props) = Obj <$> forEach_props conv props [].
Hypothesis conv_Inst :
  ∀ x, if bad x then conv (Inst x) = Throw E0 else ∃ w, conv (Inst x) = Return w.

Lemma converter_outcome (v : val A) :
  if existsb bad (instances v) then conv v = Throw E0 else ∃ w, conv v = Return w.
Proof.
  induction v as [p | items IH | props IH | x] using val_ind'.
  - simpl. eauto.
  - simpl instances. rewrite existsb_flat_map, conv_Arr.
    pose proof (forEach_items_outcome conv E0
                  (fun v => existsb bad (instances v)) items IH 0%nat []) as Hloop.
    destruct (existsb _ items).
    + by rewrite Hloop.
    + destruct Hloop as [ws ->]. simpl. eauto.
  - simpl instances. rewrite existsb_flat_map, conv_Obj.
    assert (existsb (fun kv : string * val A =>
                       existsb bad (let (_, x) := kv in instances x)) props
            = existsb (fun kv => existsb bad (instances (snd kv))) props) as ->.
    { clear. induction props as [|[k x] props IHp]; [done |]. simpl. by rewrite IHp. }
    pose proof (forEach_props_outcome conv E0
                  (fun v => existsb bad (instances v)) props IH []) as Hloop.
    destruct (existsb _ props).
    + by rewrite Hloop.
    + destruct Hloop as [ws ->]. simpl. eauto.
  - simpl. rewrite orb_false_r. apply conv_Inst.
Qed.
End ConverterOutcome.

(** X1: the read-to-write converter returns exactly on the values that
    hold no read reference, however deep; on the others it throws the
    [ReferenceError] of the unbound class, whatever else they hold. *)
Theorem readDocsToWriteDocs_outcome (db : DB) (transaction : Transaction)
    (data : val read_instance) :
  if existsb is_read_ref (instances data)
  then readDocsToWriteDocs db transaction data
       = Throw (ReferenceError "WriteRead is not defined")
  else ∃ w, readDocsToWriteDocs db transaction data = Return w.
Proof.
  apply converter_outcome; [done.. |].
  intros [doc|ref]; simpl; eauto.
Qed.

(** X2: the output converter returns exactly on the values that hold no
    write reference; on the others it throws the [TypeError] of the
    missing [ref] property. *)
Theorem writeDocsToDocs_outcome (db : DB) (value : val write_instance) :
  if existsb is_write_ref (instances value)
  then writeDocsToDocs db value
       = Throw (TypeError "Cannot read properties of undefined (reading 'collection')")
  else ∃ w, writeDocsToDocs db value = Return w.
Proof.
  apply converter_outcome; [done.. |].
  intros [doc|ref]; simpl; eauto.
Qed.



(** ** The two converters in a row *)








(** ** The store across a transaction *)





(** X7: the trees depend on the store only through the db object: on two
    stores that hold the same object under [rootDB], [readDB] builds the
    same read tree and [writeDB] the same write tree. *)
Theorem readDB_writeDB_store_independent (rootDB : DB) (transaction : Transaction)
    (heap1 heap2 : gmap loc (gmap string entry)) (db : gmap string entry) :
  heap1 !! rootDB = Some db → heap2 !! rootDB = Some db →
  (readDB rootDB transaction heap1).1 = (readDB rootDB transaction heap2).1
  ∧ (writeDB rootDB transaction heap1).1 = (writeDB rootDB transaction heap2).1.
Proof.
  intros H1 H2. split.
  - rewrite (proj1 (readDB_eq rootDB transaction heap1 db H1)).
    by rewrite (proj1 (readDB_eq rootDB transaction heap2 db H2)).
  - rewrite (proj1 (writeDB_eq rootDB transaction heap1 db H1)).
    by rewrite (proj1 (writeDB_eq rootDB transaction heap2 db H2)).
Qed.

Lemma readDB_writeDB_store_independent_witness :
  example_heap !! 1%positive = Some example_db
  ∧ example_heap_retry !! 1%positive = Some example_db
  ∧ (readDB 1%positive 7 example_heap).1 = (readDB 1%positive 7 example_heap_retry).1
  ∧ (writeDB 1%positive 7 example_heap).1 = (writeDB 1%positive 7 example_heap_retry).1.
Proof.
  assert (example_heap !! 1%positive = Some example_db) as H1 by reflexivity.
  assert (example_heap_retry !! 1%positive = Some example_db) as H2 by reflexivity.
  split; [exact H1 |]. split; [exact H2 |].
  exact (readDB_writeDB_store_independent 1%positive 7 example_heap example_heap_retry
           example_db H1 H2).
Defined.



(** ** Staging *)

Lemma calls_stage (transaction : Transaction) (w : write)
    (staged : gmap Transaction (list write)) :
  staged_after transaction [w] staged (stage transaction w staged).
Proof.
  unfold staged_after, calls, stage. split.
  - by rewrite lookup_insert_eq.
  - intros t Ht. by rewrite lookup_insert_ne.
Qed.


Lemma staged_after_trans (transaction : Transaction) (s1 s2 : list write)
    (a b c : gmap Transaction (list write)) :
  staged_after transaction s1 a b → staged_after transaction s2 b c →
  staged_after transaction (s1 ++ s2) a c.
Proof.
  intros [Hab Hab'] [Hbc Hbc']. split.
  - by rewrite Hbc, Hab, <- app_assoc.
  - intros t Ht. by rewrite Hbc', Hab'.
Qed.


(** X10: every mutation of a write document reaches the transaction of
    its collection as one call on the document [path/id], after the calls
    this transaction had already received, and no other transaction:
    [set] without merge, [upset] with merge, [remove] as a delete, and
    [update] as at most one update; two mutations arrive in the order in
    which they were made. *)
Theorem WriteDoc_methods_stage (unwrapData : payload → native) (doc : WriteDoc.t)
    (data : set_data) (update : update_data) (staged : gmap Transaction (list write)) :
  let transaction := WriteCollection.transaction (WriteRef.collection (WriteDoc.ref doc)) in
  let path := WriteCollection.path (WriteRef.collection (WriteDoc.ref doc))
              +:+ "/" +:+ WriteRef.id (WriteDoc.ref doc) in
  staged_after transaction [TxSet path (unwrapData (set_payload data)) false]
    staged (WriteDoc_set unwrapData doc data staged)
  ∧ staged_after transaction [TxSet path (unwrapData (set_payload data)) true]
      staged (WriteDoc_upset unwrapData doc data staged)
  ∧ staged_after transaction [TxDelete path] staged (WriteDoc_remove doc staged)
  ∧ (∃ suffix, staged_after transaction suffix staged
                 (WriteDoc_update unwrapData doc update staged)
               ∧ (suffix = [] ∨ ∃ native, suffix = [TxUpdate path native]))
  ∧ staged_after transaction
      [TxSet path (unwrapData (set_payload data)) false; TxDelete path]
      staged (WriteDoc_remove doc (WriteDoc_set unwrapData doc data staged)).
Proof.
  intros transaction path.
  assert (staged_after transaction [TxSet path (unwrapData (set_payload data)) false]
            staged (WriteDoc_set unwrapData doc data staged)) as Hset
    by apply calls_stage.
  assert (∀ staged', staged_after transaction [TxDelete path] staged'
                       (WriteDoc_remove doc staged')) as Hremove
    by (intros staged'; apply calls_stage).
  split; [exact Hset |]. split; [apply calls_stage |]. split; [apply Hremove |].
  split.
  - unfold WriteDoc_update, WriteRef_update, WriteCollection_update.
    fold transaction path.
    assert (staged_after transaction [] staged staged) as Hnone.
    { split; [by rewrite app_nil_r | done]. }
    destruct (match _ with UpdatePrim p => falsy p | _ => false end);
      [exists []; eauto |].
    destruct (Nat.eqb _ 0); [exists []; eauto |].
    eexists [_]. split; [apply calls_stage | eauto].
  - exact (staged_after_trans transaction _ _ _ _ _ Hset (Hremove _)).
Qed.

(** X11: the document that [get] returns, converted for the write phase,
    is written where it was read: its mutations are staged on the
    transaction of the handle, on the path [path/id] under which the
    database holds the snapshot. *)
Theorem read_then_write_same_document (unwrapData : payload → native)
    (db : DB) (transaction : Transaction) (this : ReadCollection.t) (id : string)
    (firestore : gmap string native) (doc : ReadDoc.t) (data : set_data)
    (staged : gmap Transaction (list write)) :
  ReadCollection_get this id firestore = Return (Some doc) →
  let path := ReadCollection.path this +:+ "/" +:+ id in
  is_Some (firestore !! path)
  ∧ readDocsToWriteDocs db transaction (Inst (AReadDoc doc))
    = Return (Inst (AWriteDoc (WriteDoc.fromRead doc)))
  ∧ WriteDoc_remove (WriteDoc.fromRead doc) staged
    = stage (ReadCollection.transaction this) (TxDelete path) staged
  ∧ WriteDoc_set unwrapData (WriteDoc.fromRead doc) data staged
    = stage (ReadCollection.transaction this)
        (TxSet path (unwrapData (set_payload data)) false) staged
  ∧ WriteDoc_upset unwrapData (WriteDoc.fromRead doc) data staged
    = stage (ReadCollection.transaction this)
        (TxSet path (unwrapData (set_payload data)) true) staged.
Proof.
  intros Hget path. unfold ReadCollection_get in Hget. fold path in Hget.
  destruct (firestore !! path) as [native|] eqn:Hdoc; [| done].
  destruct (wrapData _ _ _) as [w|e]; [| done].
  simpl in Hget. injection Hget as <-.
  split; [eauto |]. by repeat split.
Qed.

Lemma read_then_write_same_document_witness :
  let friend := WriteRef.new (WriteCollection.new 1%positive 7 "users" "users") "u2" in
  let doc := ReadDoc.new example_users "u1"
               (Obj [("name", Prim (PString "Sasha"));
                     ("friend", Inst (WriteReference friend))]) in
  ReadCollection_get example_users "u1" example_firestore = Return (Some doc)
  ∧ is_Some (example_firestore !! "users/u1")
  ∧ WriteDoc_remove (WriteDoc.fromRead doc) ∅ = stage 7 (TxDelete "users/u1") ∅.
Proof.
  intros friend doc.
  assert (ReadCollection_get example_users "u1" example_firestore = Return (Some doc))
    as Hget by reflexivity.
  split; [exact Hget |].
  destruct (read_then_write_same_document (fun _ => Prim PNull) 1%positive 7 example_users
              "u1" example_firestore doc (SetData (Prim PNull)) ∅ Hget)
    as (Hsome & _ & Hremove & _).
  split; [exact Hsome | exact Hremove].
Defined.

(** ** The path resolver, back and forth *)

Lemma segments_not_nil (s : string) : segments s ≠ [].
Proof.
  induction s as [|c s IH]; [done |]. simpl.
  destruct (Ascii.eqb c "/"); [done |]. by destruct (segments s).
Qed.

(** Joining the segments gives the string back. *)
Lemma concat_segments (s : string) : String.concat "/" (segments s) = s.
Proof.
  induction s as [|c s IH]; [reflexivity |]. simpl.
  destruct (Ascii.eqb_spec c "/") as [->|_].
  - pose proof (segments_not_nil s) as Hne.
    destruct (segments s) as [|seg segs]; [done |].
    change (String.concat "/" ("" :: seg :: segs))
      with ("" +:+ "/" +:+ String.concat "/" (seg :: segs)).
    by rewrite IH.
  - pose proof (segments_not_nil s) as Hne.
    destruct (segments s) as [|seg segs]; [done |].
    destruct segs as [|seg' segs].
    + simpl in *. by rewrite IH.
    + change (String.concat "/" (String c seg :: seg' :: segs))
        with (String c (seg +:+ "/" +:+ String.concat "/" (seg' :: segs))).
      change (String.concat "/" (seg :: seg' :: segs))
        with (seg +:+ "/" +:+ String.concat "/" (seg' :: segs)) in IH.
      by rewrite IH.
Qed.

(** What the resolver returns, when it returns. *)
Lemma pathToWriteRef_Return (db : DB) (transaction : Transaction) (path : string)
    (w : WriteRef.t) :
  pathToWriteRef db transaction path = Return w →
  ∃ (prefix : list string) (name id : string),
    segments path = (prefix ++ [name; id])%list
    ∧ w = WriteRef.new
            (WriteCollection.new db transaction name (String.concat "/" (prefix ++ [name])))
            id.
Proof.
  unfold pathToWriteRef, pathRegExp_match.
  destruct (forallb nonempty (segments path)); [| done].
  destruct (rev (segments path)) as [|id [|name rprefix]] eqn:Hrev; [done | done |].
  intros Hw. exists (rev rprefix), name, id.
  assert (segments path = (rev rprefix ++ [name; id])%list) as Hsegs.
  { rewrite <- (rev_involutive (segments path)), Hrev. simpl.
    by rewrite <- app_assoc. }
  split; [exact Hsegs |].
  destruct rprefix as [|seg rprefix]; [by injection Hw as <- |].
  assert (rev (seg :: rprefix) ≠ []) as Hne.
  { simpl. by destruct (rev rprefix). }
  generalize dependent (rev (seg :: rprefix)). intros prefix Hw _ Hne.
  simpl in Hw. injection Hw as <-. by rewrite concat_snoc, append_assoc.
Qed.

(** The collection path and the id of the reference give the path back,
    and removing the reference stages the deletion of that path. *)
Lemma pathToWriteRef_document_path (db : DB) (transaction : Transaction) (path : string)
    (w : WriteRef.t) :
  pathToWriteRef db transaction path = Return w →
  WriteCollection.path (WriteRef.collection w) +:+ "/" +:+ WriteRef.id w = path.
Proof.
  intros Hw.
  destruct (pathToWriteRef_Return db transaction path w Hw)
    as (prefix & name & id & Hsegs & ->).
  simpl. transitivity (String.concat "/" (segments path)); [| apply concat_segments].
  rewrite Hsegs.
  replace (prefix ++ [name; id])%list with ((prefix ++ [name]) ++ [id])%list
    by (by rewrite <- app_assoc).
  rewrite (concat_snoc "/" (prefix ++ [name])); [done |].
  by destruct prefix.
Qed.

Lemma WriteRef_remove_resolved (db : DB) (transaction : Transaction) (path : string)
    (w : WriteRef.t) (staged : gmap Transaction (list write)) :
  pathToWriteRef db transaction path = Return w →
  WriteRef_remove w staged = stage transaction (TxDelete path) staged.
Proof.
  intros Hw. unfold WriteRef_remove, WriteCollection_remove.
  rewrite (pathToWriteRef_document_path db transaction path w Hw).
  by rewrite (pathToWriteRef_transaction db transaction path w Hw).
Qed.

(** X12: the reference that the resolver returns stands for the document
    of the path it was given: its collection path, a slash and its id are
    the path again, it is bound to the db and the transaction it was
    resolved for, and removing it stages the deletion of that path. *)
Theorem pathToWriteRef_round_trip (db : DB) (transaction : Transaction) (path : string)
    (w : WriteRef.t) (staged : gmap Transaction (list write)) :
  pathToWriteRef db transaction path = Return w →
  WriteCollection.path (WriteRef.collection w) +:+ "/" +:+ WriteRef.id w = path
  ∧ WriteCollection.db (WriteRef.collection w) = db
  ∧ WriteCollection.transaction (WriteRef.collection w) = transaction
  ∧ WriteRef_remove w staged = stage transaction (TxDelete path) staged.
Proof.
  intros Hw.
  split; [by eapply pathToWriteRef_document_path |].
  split.
  { destruct (pathToWriteRef_Return db transaction path w Hw)
      as (prefix & name & id & _ & ->). done. }
  split; [by eapply pathToWriteRef_transaction |].
  by eapply WriteRef_remove_resolved.
Qed.

Lemma pathToWriteRef_round_trip_witness :
  let w := WriteRef.new (WriteCollection.new 1%positive 7 "c" "a/b/c") "d" in
  pathToWriteRef 1%positive 7 "a/b/c/d" = Return w
  ∧ WriteCollection.path (WriteRef.collection w) +:+ "/" +:+ WriteRef.id w = "a/b/c/d"
  ∧ WriteRef_remove w ∅ = stage 7 (TxDelete "a/b/c/d") ∅.
Proof.
  intros w.
  assert (pathToWriteRef 1%positive 7 "a/b/c/d" = Return w) as Hw by reflexivity.
  split; [exact Hw |].
  destruct (pathToWriteRef_round_trip 1%positive 7 "a/b/c/d" w ∅ Hw)
    as (Hpath & _ & _ & Hremove).
  split; [exact Hpath | exact Hremove].
Defined.

(** ** When [get] throws *)





(** ** The handles of the trees *)

Lemma handle_path_nested (path id name : string) :
  handle_path (Some (path +:+ "/" +:+ id)) name = path +:+ "/" +:+ id +:+ "/" +:+ name.
Proof.
  destruct path as [|c path]; [reflexivity |].
  change (handle_path (Some (String c path +:+ "/" +:+ id)) name)
    with ((String c path +:+ "/" +:+ id) +:+ "/" +:+ name).
  by rewrite !append_assoc.
Qed.

(** The path of an entry of the schema: its name at the top, and below a
    factory the path of the factory, the id of the call and the name. *)
Lemma schema_path_last (steps : list (string * string)) :
  ∀ (db : gmap string entry) (nestedPath : option string) (name p : string),
    schema_path db nestedPath steps name = Some p →
    match last steps with
    | None => p = handle_path nestedPath name
    | Some (_, id) => ∃ path, p = path +:+ "/" +:+ id +:+ "/" +:+ name
    end.
Proof.
  induction steps as [|[factory id] steps IH]; intros db nestedPath name p; simpl.
  - destruct (db !! name); [| done]. by intros [= <-].
  - destruct (db !! factory) as [[descriptor|path call]|]; [done | | done].
    intros Hp. specialize (IH _ _ _ _ Hp).
    destruct steps as [|step steps].
    + change (p = handle_path (Some (path +:+ "/" +:+ id)) name) in IH.
      change (∃ path0, p = path0 +:+ "/" +:+ id +:+ "/" +:+ name).
      exists path. by rewrite IH, handle_path_nested.
    + rewrite last_cons_cons.
      destruct (last (step :: steps)) as [[proxy id']|] eqn:Hlast; [exact IH |].
      by apply last_None in Hlast.
Qed.

(** X14: a handle of the read tree carries the key it is stored under as
    its name, the db object and the transaction; its path is the key at
    the top level, and in the tree that a proxy returns for an id it is
    the path of the factory, the id and the key, joined by slashes. *)
Theorem read_handle_path (rootDB : DB) (transaction : Transaction)
    (heap : gmap loc (gmap string entry)) (db : gmap string entry)
    (steps : list (string * string)) (name : string) (c : ReadCollection.t) :
  heap !! rootDB = Some db →
  read_handle (readDB rootDB transaction heap).1 steps name = Some c →
  ReadCollection.name c = name
  ∧ ReadCollection.db c = rootDB
  ∧ ReadCollection.transaction c = transaction
  ∧ match last steps with
    | None => ReadCollection.path c = name
    | Some (_, id) => ∃ path, ReadCollection.path c = path +:+ "/" +:+ id +:+ "/" +:+ name
    end.
Proof.
  intros Hdb. rewrite (proj1 (readDB_eq rootDB transaction heap db Hdb)).
  rewrite read_handle_convertDB.
  destruct (schema_path _ _ _ _) as [p|] eqn:Hp; [| done].
  simpl. intros [= <-]. repeat split.
  exact (schema_path_last steps _ _ _ _ Hp).
Qed.

Lemma read_handle_path_witness :
  let c := ReadCollection.new 1%positive 7 "members" "orgs/o1/members" in
  example_heap !! 1%positive = Some example_db
  ∧ read_handle (readDB 1%positive 7 example_heap).1 [("orgs", "o1")] "members" = Some c
  ∧ ReadCollection.name c = "members"
  ∧ ∃ path, ReadCollection.path c = path +:+ "/" +:+ "o1" +:+ "/" +:+ "members".
Proof.
  intros c.
  assert (example_heap !! 1%positive = Some example_db) as Hdb by reflexivity.
  assert (read_handle (readDB 1%positive 7 example_heap).1 [("orgs", "o1")] "members"
          = Some c) as Hc by (by vm_compute).
  split; [exact Hdb |]. split; [exact Hc |].
  destruct (read_handle_path 1%positive 7 example_heap example_db [("orgs", "o1")]
              "members" c Hdb Hc) as (Hname & _ & _ & Hpath).
  split; [exact Hname | exact Hpath].
Defined.

(** X15: the write collection that the converter derives from a handle of
    the read tree ([WriteCollection.fromRead]) is the handle that the
    write tree holds at the same place: same db, transaction, name and
    path. *)
Theorem fromRead_read_handle (rootDB : DB) (transaction : Transaction)
    (heap : gmap loc (gmap string entry)) (db : gmap string entry)
    (steps : list (string * string)) (name : string) :
  heap !! rootDB = Some db →
  WriteCollection.fromRead <$> read_handle (readDB rootDB transaction heap).1 steps name
  = write_handle (writeDB rootDB transaction (readDB rootDB transaction heap).2).1
      steps name.
Proof.
  intros Hdb.
  destruct (readDB_eq rootDB transaction heap db Hdb) as [Hread Hheap].
  assert ((readDB rootDB transaction heap).2 !! rootDB = Some db) as Hdb'.
  { rewrite Hheap; [exact Hdb | eauto]. }
  rewrite Hread, (proj1 (writeDB_eq rootDB transaction _ db Hdb')).
  rewrite read_handle_convertDB, write_handle_convertDB.
  by destruct (schema_path _ _ _ _).
Qed.

Lemma fromRead_read_handle_witness :
  example_heap !! 1%positive = Some example_db
  ∧ WriteCollection.fromRead
      <$> read_handle (readDB 1%positive 7 example_heap).1 [("orgs", "o1")] "groups"
    = write_handle (writeDB 1%positive 7 (readDB 1%positive 7 example_heap).2).1
        [("orgs", "o1")] "groups".
Proof.
  assert (example_heap !! 1%positive = Some example_db) as Hdb by reflexivity.
  split; [exact Hdb |].
  exact (fromRead_read_handle 1%positive 7 example_heap example_db [("orgs", "o1")]
           "groups" Hdb).
Defined.

(** ** What the read-to-write converter is bound to *)

Lemma forEach_items_ext {A B : Type} (f g : val A → outcome (val B))
    (entries : list (val A)) :
  Forall (fun v => f v = g v) entries →
  ∀ key processedData,
    forEach_items f entries key processedData = forEach_items g entries key processedData.
Proof.
  induction 1 as [|v entries Hv _ IH]; intros key processedData; [done |].
  simpl. rewrite Hv. destruct (g v) as [w|e]; [| done]. simpl. apply IH.
Qed.

Lemma forEach_props_ext {A B : Type} (f g : val A → outcome (val B))
    (entries : list (string * val A)) :
  Forall (fun kv => f (snd kv) = g (snd kv)) entries →
  ∀ processedData,
    forEach_props f entries processedData = forEach_props g entries processedData.
Proof.
  induction 1 as [|[k v] entries Hv _ IH]; intros processedData; [done |].
  simpl in *. rewrite Hv. destruct (g v) as [w|e]; [| done]. simpl. apply IH.
Qed.

(** X16: the read-to-write converter makes no use of the db and the
    transaction it is passed: a write document is bound to the db and the
    transaction of the collection it was read from, so the result is the
    same whatever db and transaction are passed. *)
Theorem readDocsToWriteDocs_ignores_arguments (db db' : DB)
    (transaction transaction' : Transaction) (data : val read_instance) :
  readDocsToWriteDocs db transaction data = readDocsToWriteDocs db' transaction' data.
Proof.
  induction data as [p | items IH | props IH | x] using val_ind'; [done | | | done].
  - simpl. by rewrite (forEach_items_ext _ _ items IH).
  - simpl. by rewrite (forEach_props_ext _ _ props IH).
Qed.

(** ** The references of a payload, in the write phase *)

Lemma mapM_Return {A B : Type} (f : A → outcome B) (l : list A) (k : list B) :
  mapM f l = Return k → Forall2 (fun x y => f x = Return y) l k.
Proof.
  revert k. induction l as [|x l IH]; intros k; simpl.
  - intros [= <-]. constructor.
  - destruct (f x) as [y|e] eqn:Hx; [| done]. simpl.
    destruct (mapM f l) as [k'|e]; [| done]. simpl. intros [= <-].
    constructor; [done | by apply IH].
Qed.

(** What [wrapData] returns has the shape of the data, each embedded
    reference being what the resolver returned on it. *)
Lemma wrapData_Return (db : DB) (ref : DB → string → outcome reference) (data : native) :
  ∀ w, wrapData db data ref = Return w →
       same_shape (fun path r => ref db path = Return r) data w.
Proof.
  induction data as [p | items IH | props IH | path] using val_ind'; intros w.
  - intros [= <-]. by split; [| constructor].
  - rewrite wrapData_Arr.
    destruct (mapM _ items) as [ws|e] eqn:Hm; [| done]. simpl. intros [= <-].
    apply same_shape_Arr. apply mapM_Return in Hm.
    induction Hm as [|v w items ws Hv _ IHm]; [constructor |].
    apply Forall_cons in IH as [IHv IH]. constructor; [by apply IHv | by apply IHm].
  - rewrite wrapData_Obj.
    destruct (mapM _ props) as [ws|e] eqn:Hm; [| done]. simpl. intros [= <-].
    apply same_shape_Obj. apply mapM_Return in Hm.
    induction Hm as [|[k v] [k' w] props ws Hv _ IHm]; [constructor |].
    apply Forall_cons in IH as [IHv IH]. simpl in IHv.
    destruct (wrapData db v ref) as [w'|e] eqn:Hw; [| done].
    simpl in Hv. injection Hv as -> ->.
    constructor; [split; [done | by apply IHv] | by apply IHm].
  - simpl. destruct (ref db path) as [r|e] eqn:Hr; [| done]. simpl. intros [= <-].
    split; [done | by repeat constructor].
Qed.

(** X17: in the payload of a document that [get] returns, every embedded
    reference is a write reference that writes where the stored path
    points: its payload has the shape of the snapshot data, and removing
    the reference found in place of a stored path stages, on the
    transaction of the handle, the deletion of the document of that
    path. *)
Theorem ReadCollection_get_references (this : ReadCollection.t) (id : string)
    (firestore : gmap string native) (doc : ReadDoc.t) :
  ReadCollection_get this id firestore = Return (Some doc) →
  ∃ data : native,
    firestore !! (ReadCollection.path this +:+ "/" +:+ id) = Some data
    ∧ same_shape
        (fun path r =>
           ∃ w : WriteRef.t,
             r = WriteReference w
             ∧ ∀ staged, WriteRef_remove w staged
                         = stage (ReadCollection.transaction this) (TxDelete path) staged)
        data (ReadDoc.data doc).
Proof.
  unfold ReadCollection_get.
  destruct (firestore !! _) as [data|]; [| done].
  destruct (wrapData _ _ _) as [w|e] eqn:Hw; [| done]. simpl. intros [= <-].
  exists data. split; [done |].
  apply wrapData_Return in Hw as [Hshape Hrefs]. split; [exact Hshape |].
  eapply Forall2_impl; [exact Hrefs |]. simpl. intros path r Hr.
  destruct (pathToWriteRef _ _ path) as [wr|e] eqn:Hwr; [| done].
  simpl in Hr. injection Hr as <-. exists wr. split; [done |].
  intros staged. by eapply WriteRef_remove_resolved.
Qed.

Lemma ReadCollection_get_references_witness :
  let friend := WriteRef.new (WriteCollection.new 1%positive 7 "users" "users") "u2" in
  let doc := ReadDoc.new example_users "u1"
               (Obj [("name", Prim (PString "Sasha"));
                     ("friend", Inst (WriteReference friend))]) in
  ReadCollection_get example_users "u1" example_firestore = Return (Some doc)
  ∧ ∃ data : native,
      example_firestore !! (ReadCollection.path example_users +:+ "/" +:+ "u1") = Some data
      ∧ same_shape
          (fun path r =>
             ∃ w : WriteRef.t,
               r = WriteReference w
               ∧ ∀ staged, WriteRef_remove w staged
                           = stage (ReadCollection.transaction example_users)
                               (TxDelete path) staged)
          data (ReadDoc.data doc).
Proof.
  intros friend doc.
  assert (ReadCollection_get example_users "u1" example_firestore = Return (Some doc))
    as Hget by reflexivity.
  split; [exact Hget |].
  exact (ReadCollection_get_references example_users "u1" example_firestore doc Hget).
Defined.
